(** * gallery-dl: the reddit extractor ([gallery_dl/extractor/reddit.py])

    A shallow embedding of [RedditAPI] (token cache, [_call], [morechildren],
    [_flatten], [submission], [_pagination]) and of [RedditExtractor]
    ([_urls], [items]), with the properties of its specification.

    Python objects are modelled by the keys the code reads.  Generators are
    state machines: one [step] runs the generator body up to its next loop
    head or [yield].  Exceptions are values of [exn] carried by [result];
    state changed before a [raise] stays changed. *)

From Stdlib Require Import ZArith QArith String Ascii List Lia Bool.
From stdpp Require Import base gmap strings list pretty.

Set Warnings "-register-all,-clear-no-such-hyp".

Open Scope string_scope.
Open Scope list_scope.
Open Scope Z_scope.

(** ** Python values and exceptions *)

(** A JSON scalar as the code compares it.  A JSON number, integer or float,
    is the rational it denotes: Python compares [int] and [float] exactly. *)
Inductive jval :=
  | JNull
  | JBool (b : bool)
  | JNum (q : Q)
  | JStr (s : string).

(** [v == n] for a JSON value [v] and an integer literal [n]. *)
Definition jeq_int (v : jval) (n : Z) : bool :=
  match v with
  | JNum q => Qeq_bool q (inject_Z n)
  | JBool b => Z.eqb (if b then 1 else 0) n
  | _ => false
  end.

Inductive exn :=
  | AuthenticationError (error message : option jval)
  | AuthorizationError
  | NotFoundError
  | Exception (message : jval)
  | KeyError (key : string)
  | ValueError
  | TypeError
  | IndexError
  | OverflowError
  | OSError
  | HttpError (what : string).

Inductive result (A : Type) :=
  | Ok (a : A)
  | Raise (e : exn).
Arguments Ok {A} a.
Arguments Raise {A} e.

(** Truthiness of an optional string ([None] and [''] are falsy). *)
Definition truthy (o : option string) : bool :=
  match o with
  | Some s => negb (String.eqb s EmptyString)
  | None => false
  end.

(** The value of [float(s)]: a finite binary64 is the rational it is. *)
Inductive fval :=
  | FFinite (q : Q)
  | FPosInf
  | FNegInf
  | FNaN.

(** [x < n] for a float [x] and an integer literal [n]. *)
Definition flt_int (x : fval) (n : Z) : bool :=
  match x with
  | FFinite q => negb (Qle_bool (inject_Z n) q)
  | FNegInf => true
  | FPosInf | FNaN => false
  end.

(** ** The data the API returns *)

(** The [data] dictionary of a 't3' thing, by the keys read here. *)
Record post := Post {
  id : string;
  created_utc : Q;
  num_comments : Z;
  is_self : bool;
  url : string;
  selftext_html : option string;
}.

(** The [data] dictionary of a comment. *)
Record comment := Comment {
  c_id : string;
  c_created_utc : Q;
  body_html : option string;
}.

(** An entry of a comment tree: [kind == 'more'] with the identifiers of the
    children not yet loaded, or a comment with its [replies] ([''], here
    [None], or a listing, here the list of its children).  JSON decoding
    builds trees: the [replies] lists are values of their own and no list
    is reachable along two paths. *)
Inductive thing :=
  | TMore (children : list string)
  | TComment (data : comment) (replies : option (list thing)).

(** An entry of a listing page, by its [kind]. *)
Inductive child :=
  | T3 (p : post)
  | T1 (c : comment)
  | TKind (kind : string) (kid : string) (kcreated_utc : Q).

Definition child_id (c : child) : string :=
  match c with
  | T3 p => id p
  | T1 c => c_id c
  | TKind _ i _ => i
  end.

Definition child_created_utc (c : child) : Q :=
  match c with
  | T3 p => created_utc p
  | T1 c => c_created_utc c
  | TKind _ _ t => t
  end.

(** The decoded JSON body of an API response, by its shape. *)
Inductive body :=
  | BError (error : jval) (message : option jval)
  | BListing (children : list child) (after : option string)
  | BSubmission (submission : post) (comments : list thing)
  | BThings (things : list thing).

Inductive pval :=
  | PInt (n : Z)
  | PStr (s : string).

Abbreviation params := (gmap string pval).

Record response := Response {
  headers : gmap string string;
  json : option body;
}.

(** The JSON object of the token endpoint's answer. *)
Record token_json := TokenJson {
  t_error : option jval;
  t_message : option jval;
  access_token : option string;
}.

Record token_response := TokenResponse {
  status_code : Z;
  t_json : option token_json;
}.

Inductive grant :=
  | GrantRefresh (refresh_token : string)
  | GrantInstalled (device_id : string).

(** ** The world: clock, token cache, session, requests made, list objects *)

Inductive event :=
  | EToken (client : option string) (g : grant)
  | EGet (url : string) (p : params) (authorization : option string)
  | ESleep (seconds : Z).

Abbreviation loc := positive.

Record state := State {
  now : Z;
  token_cache : gmap (option string) (string * Z);
  authorization : option string;
  log : list event;
  heap : gmap loc (list thing);
}.

Definition set_now (t : Z) (s : state) : state :=
  State t (token_cache s) (authorization s) (log s) (heap s).
Definition set_token_cache (c : gmap (option string) (string * Z)) (s : state) : state :=
  State (now s) c (authorization s) (log s) (heap s).
Definition set_authorization (a : option string) (s : state) : state :=
  State (now s) (token_cache s) a (log s) (heap s).
Definition add_event (e : event) (s : state) : state :=
  State (now s) (token_cache s) (authorization s) (log s ++ [e]) (heap s).
Definition set_heap (h : gmap loc (list thing)) (s : state) : state :=
  State (now s) (token_cache s) (authorization s) (log s) h.

(** A state and exception monad. *)
Definition M (A : Type) : Type := state -> result A * state.

Definition ret {A} (a : A) : M A := fun s => (Ok a, s).
Definition raise {A} (e : exn) : M A := fun s => (Raise e, s).
Definition bind {A B} (m : M A) (k : A -> M B) : M B :=
  fun s =>
    match m s with
    | (Ok a, s') => k a s'
    | (Raise e, s') => (Raise e, s')
    end.
Definition lift {A} (r : result A) : M A := fun s => (r, s).
Definition modify (f : state -> state) : M unit := fun s => (Ok tt, f s).
Definition gets {A} (f : state -> A) : M A := fun s => (Ok (f s), s).

Notation "'let*' x ':=' m 'in' k" := (bind m (fun x => k))
  (at level 10, x name, m at level 100, k at level 200).

(** ** [RedditAPI]: configuration and collaborators

    [self] carries the options read in [__init__] and what the class
    consumes from outside: the servers, which answer a request as a function
    of the requests made so far, and the builtins [float] and [int] on
    header strings. *)
Record RedditAPI := {
  (* text.parse_int(extractor.config('comments', 0)) *)
  comments : Z;
  (* extractor.config('morecomments', False) *)
  morecomments : bool;
  (* extractor.config('refresh-token') *)
  refresh_token : option string;
  (* [None] when only one of 'client-id' and 'user-agent' is overridden *)
  client_id : option string;
  (* extractor.config('id-min') and extractor.config('id-max') *)
  config_id_min : option string;
  config_id_max : option string;
  (* extractor._get_date_min_max(0, 253402210800) *)
  date_min : Q;
  date_max : Q;
  (* the answer to the POST of [_authenticate_impl]: history, client, grant *)
  token_server : list event -> option string -> grant -> result token_response;
  (* the answer to the GET of [_call]: history, url, params, Authorization *)
  api_server : list event -> string -> params -> option string -> result response;
  (* float(s) and int(s); [None] is a ValueError *)
  py_float : string -> option fval;
  py_int : string -> option Z;
  (* time.sleep(wait) for a wait that is not negative: the exception it
     ends with instead of sleeping, if any ([OverflowError] for a wait the
     clock's type cannot hold, [OSError] for a deadline the system
     refuses, which depends on the machine) *)
  time_sleep : Z -> option exn;
}.

(** [time.sleep(wait)] with an integer: a negative length is refused with
    [ValueError]; otherwise the call sleeps unless the clock or the system
    refuses the wait. *)
Definition sleep (self : RedditAPI) (wait : Z) : M unit :=
  if wait <? 0 then raise ValueError
  else match time_sleep self wait with
       | Some e => raise e
       | None => modify (fun s => add_event (ESleep wait) (set_now (now s + wait) s))
       end.

(** ** Authentication *)

Definition maxage : Z := 3600.

(** The form data of the token request: a refresh grant when a refresh
    credential is configured, the installed-client grant otherwise. *)
Definition grant_for (refresh_token : option string) : grant :=
  match refresh_token with
  | Some t => if truthy refresh_token then GrantRefresh t
              else GrantInstalled "DO_NOT_TRACK_THIS_DEVICE"
  | None => GrantInstalled "DO_NOT_TRACK_THIS_DEVICE"
  end.

(** [response.json()] and lines 269-273. *)
Definition token_of (response : token_response) : result string :=
  match t_json response with
  | None => Raise ValueError
  | Some data =>
      if negb (status_code response =? 200)
      then Raise (AuthenticationError (t_error data) (t_message data))
      else match access_token data with
           | Some t => Ok ("Bearer " +:+ t)
           | None => Raise (KeyError "access_token")
           end
  end.

Definition _authenticate_impl (self : RedditAPI) (refresh_token : option string) : M string :=
  let data := grant_for refresh_token in
  let* hist := gets log in
  let* _ := modify (add_event (EToken (client_id self) data)) in
  let* response := lift (token_server self hist (client_id self) data) in
  lift (token_of response).

(** Modelled from the spec: the [cache] decorator of [gallery_dl.cache],
    which is not part of this file.  The cached value is looked up by the
    refresh credential ([None] is a key of its own); on a miss or after
    [maxage] time units the function is called, and on success its value is
    stored with its expiry. *)
Definition cache_get (key : option string) (s : state) : option string :=
  match token_cache s !! key with
  | Some (value, expires) => if now s <? expires then Some value else None
  | None => None
  end.

(** Modelled from the spec: [_authenticate_impl] under
    [@cache(maxage=3600, keyarg=1)], the key being its argument
    [refresh_token].  An exception leaves the cache as it was. *)
Definition cached_authenticate_impl (self : RedditAPI) (refresh_token : option string) : M string :=
  fun s =>
    match cache_get refresh_token s with
    | Some value => (Ok value, s)
    | None =>
        let timestamp := now s in
        match _authenticate_impl self refresh_token s with
        | (Ok value, s') =>
            (Ok value,
             set_token_cache (<[refresh_token := (value, timestamp + maxage)]> (token_cache s')) s')
        | (Raise e, s') => (Raise e, s')
        end
    end.

Definition authenticate (self : RedditAPI) : M unit :=
  let* access_token := cached_authenticate_impl self (refresh_token self) in
  modify (set_authorization (Some access_token)).

(** The number of token requests in a log. *)
Definition exchanges (l : list event) : nat :=
  length (List.filter (fun e => match e with EToken _ _ => true | _ => false end) l).

(** ** [_call] *)

(** [params['raw_json'] = 1]: what [_call] does to the dictionary it is
    given, which its caller keeps. *)
Definition raw_json (p : params) : params := <["raw_json" := PInt 1]> p.

(** Lines 280-284: the wait asked for by the rate-limit headers. *)
Definition ratelimit (self : RedditAPI) (response : response) : M unit :=
  let remaining := headers response !! "x-ratelimit-remaining" in
  match remaining with
  | Some r =>
      if truthy remaining then
        match py_float self r with
        | None => raise ValueError
        | Some x =>
            if flt_int x 2 then
              match headers response !! "x-ratelimit-reset" with
              | None => raise (KeyError "x-ratelimit-reset")
              | Some v =>
                  match py_int self v with
                  | None => raise ValueError
                  | Some wait => sleep self wait
                  end
              end
            else ret tt
        end
      else ret tt
  | None => ret tt
  end.

(** Lines 285-292: [response.json()] and the embedded error of the body. *)
Definition check_error (response : response) : result body :=
  match json response with
  | None => Raise ValueError
  | Some data =>
      match data with
      | BError error message =>
          if jeq_int error 403 then Raise AuthorizationError
          else if jeq_int error 404 then Raise NotFoundError
          else match message with
               | Some m => Raise (Exception m)
               | None => Raise (KeyError "message")
               end
      | _ => Ok data
      end
  end.

Definition request (self : RedditAPI) (url : string) (p : params) : M response :=
  let* hist := gets log in
  let* auth := gets authorization in
  let* _ := modify (add_event (EGet url p auth)) in
  lift (api_server self hist url p auth).

Definition _call (self : RedditAPI) (endpoint : string) (p : params) : M body :=
  let url := "https://oauth.reddit.com" +:+ endpoint in
  let p := raw_json p in
  let* _ := authenticate self in
  let* response := request self url p in
  let* _ := ratelimit self response in
  lift (check_error response).

(** ** [morechildren] *)

(** [','.join(l)] and the slice [l[i:j]] for [0 <= i <= j]. *)
Definition join (sep : string) (l : list string) : string := String.concat sep l.
Definition slice {A} (l : list A) (i j : nat) : list A := firstn (j - i) (skipn i l).

(** The generator [morechildren(link_id, children)]: at the head of its
    [while] loop, inside the [for] loop over the things of a response, or
    over ([MStop] by return, [MRaised] by an exception). *)
Inductive mc_state :=
  | MLoop (p : params) (children : list string) (index : nat) (done : bool)
  | MFor (p : params) (children : list string) (index : nat) (done : bool)
         (things : list thing)
  | MStop
  | MRaised (e : exn).

Definition mc_init (link_id : string) (children : list string) : mc_state :=
  MLoop (<["api_type" := PStr "json"]> (<["link_id" := PStr link_id]> ∅)) children 0 false.

(** [self._call(endpoint, params)['json']['data']['things']] *)
Definition things_of (b : body) : result (list thing) :=
  match b with
  | BThings things => Ok things
  | BSubmission _ _ => Raise TypeError
  | _ => Raise (KeyError "json")
  end.

Definition mc_step (self : RedditAPI) (m : mc_state) (s : state)
  : option comment * mc_state * state :=
  match m with
  | MLoop p children index done =>
      if done then (None, MStop, s)
      else
        let done :=
          if Z.of_nat (length children) - Z.of_nat index <? 100 then true else done in
        let p := <["children" := PStr (join "," (slice children index (index + 100)))]> p in
        let index := (index + 100)%nat in
        match _call self "/api/morechildren" p s with
        | (Ok b, s') =>
            match things_of b with
            | Ok things => (None, MFor (raw_json p) children index done things, s')
            | Raise e => (None, MRaised e, s')
            end
        | (Raise e, s') => (None, MRaised e, s')
        end
  | MFor p children index done things =>
      match things with
      | [] => (None, MLoop p children index done, s)
      | TMore ids :: things => (None, MFor p (children ++ ids) index done things, s)
      | TComment data _ :: things => (Some data, MFor p children index done things, s)
      end
  | MStop => (None, MStop, s)
  | MRaised e => (None, MRaised e, s)
  end.

(** Consuming the generator: [fuel] steps, with what they yield. *)
Fixpoint mc_run (self : RedditAPI) (fuel : nat) (m : mc_state) (s : state)
  : list comment * mc_state * state :=
  match fuel with
  | O => ([], m, s)
  | S fuel =>
      let '(o, m', s') := mc_step self m s in
      let '(ys, m'', s'') := mc_run self fuel m' s' in
      (option_list o ++ ys, m'', s'')
  end.

(** ** [_flatten] *)

(** The generator [_flatten(comments, link_id)]: at the head of
    [while queue], suspended at [yield comment], delegating to
    [morechildren], or over.  The queue is the list object
    [comments['data']['children']] itself, at [queue] in the heap. *)
Inductive fl_state :=
  | FLoop (extra : list string)
  | FYield (data : comment) (replies : option (list thing)) (extra : list string)
  | FMore (m : mc_state)
  | FStop
  | FRaised (e : exn).

Definition deref (queue : loc) (s : state) : list thing :=
  default [] (heap s !! queue).
Definition assign (queue : loc) (l : list thing) (s : state) : state :=
  set_heap (<[queue := l]> (heap s)) s.

Arguments deref : simpl never.
Arguments assign : simpl never.

Definition is_nil {A} (l : list A) : bool :=
  match l with [] => true | _ => false end.

Definition fl_step (self : RedditAPI) (queue : loc) (link_id : option string)
    (f : fl_state) (s : state) : option comment * fl_state * state :=
  match f with
  | FLoop extra =>
      match deref queue s with
      | [] =>
          match link_id with
          | Some l =>
              if truthy link_id && negb (is_nil extra)
              then (None, FMore (mc_init l extra), s)
              else (None, FStop, s)
          | None => (None, FStop, s)
          end
      | TMore ids :: q =>
          (None, FLoop (if truthy link_id then extra ++ ids else extra), assign queue q s)
      | TComment data replies :: q =>
          (Some data, FYield data replies extra, assign queue q s)
      end
  | FYield data replies extra =>
      match replies with
      | Some r => (None, FLoop extra, assign queue (deref queue s ++ r) s)
      | None => (None, FLoop extra, s)
      end
  | FMore m =>
      let '(o, m', s') := mc_step self m s in
      match m' with
      | MStop => (o, FStop, s')
      | MRaised e => (o, FRaised e, s')
      | _ => (o, FMore m', s')
      end
  | FStop => (None, FStop, s)
  | FRaised e => (None, FRaised e, s)
  end.

Definition fl_over (f : fl_state) : bool :=
  match f with FStop | FRaised _ => true | _ => false end.

(** Consuming the generator: [fuel] steps, with what they yield. *)
Fixpoint fl_run (self : RedditAPI) (queue : loc) (link_id : option string)
    (fuel : nat) (f : fl_state) (s : state) : list comment * fl_state * state :=
  match fuel with
  | O => ([], f, s)
  | S fuel =>
      let '(o, f', s') := fl_step self queue link_id f s in
      let '(ys, f'', s'') := fl_run self queue link_id fuel f' s' in
      (option_list o ++ ys, f'', s'')
  end.

(** [self._flatten(comments, link_id)]: a generator not yet started. *)
Definition _flatten : fl_state := FLoop [].

(** The order in which a queue is yielded, as a function of its contents:
    the loop of [_flatten] without the heap. *)
Fixpoint queue_order (fuel : nat) (q : list thing) : list comment :=
  match fuel, q with
  | S fuel, TMore _ :: q => queue_order fuel q
  | S fuel, TComment data replies :: q =>
      data :: queue_order fuel (q ++ default [] replies)
  | _, _ => []
  end.

Fixpoint weight (t : thing) : nat :=
  match t with
  | TMore _ => 1
  | TComment _ replies =>
      S (match replies with
         | Some r => (fix go (l : list thing) : nat :=
                        match l with [] => O | x :: l => (weight x + go l)%nat end) r
         | None => O
         end)
  end.

Definition weights (q : list thing) : nat :=
  fold_right (fun t n => (weight t + n)%nat) O q.

Definition flat (q : list thing) : list comment := queue_order (weights q) q.

(** The comments of the entries of a queue, and their replies, in order. *)
Definition heads (q : list thing) : list comment :=
  flat_map (fun t => match t with TComment data _ => [data] | TMore _ => [] end) q.
Definition kids (q : list thing) : list thing :=
  flat_map (fun t => match t with TComment _ (Some r) => r | _ => [] end) q.

(** The identifiers of the 'more' entries met while the queue drains. *)
Fixpoint queue_extra (fuel : nat) (q : list thing) : list string :=
  match fuel, q with
  | S fuel, TMore ids :: q => ids ++ queue_extra fuel q
  | S fuel, TComment _ replies :: q => queue_extra fuel (q ++ default [] replies)
  | _, _ => []
  end.

(** ** [submission] *)

(** The second component of a (submission, comments) pair: a [_flatten]
    generator over the list object at [queue], or the tuple [(comment,)]. *)
Inductive comments_src :=
  | CGen (queue : loc) (link_id : option string)
  | CTuple (c : comment).

Definition api_pair : Type := option post * option comments_src.

(** A new list object. *)
Definition alloc (l : list thing) : M loc :=
  fun s => let r := fresh (dom (heap s)) in (Ok r, assign r l s).

(** [submission, comments = self._call(...)] and the first child of the
    submission listing. *)
Definition unpack_submission (b : body) : result (post * list thing) :=
  match b with
  | BSubmission p c => Ok (p, c)
  | BListing _ _ => Raise TypeError
  | _ => Raise ValueError
  end.

Definition submission (self : RedditAPI) (submission_id : string) : M api_pair :=
  let endpoint := "/comments/" +:+ submission_id +:+ "/.json" in
  let link_id := if morecomments self then Some ("t3_" +:+ submission_id) else None in
  let* b := _call self endpoint {[ "limit" := PInt (comments self) ]} in
  let* sc := lift (unpack_submission b) in
  if negb (comments self =? 0)
  then let* queue := alloc (snd sc) in
       ret (Some (fst sc), Some (CGen queue link_id))
  else ret (Some (fst sc), None).

(** ** [_pagination] *)

(** [alphabet.index(c)] *)
Fixpoint index_of (c : ascii) (alphabet : string) : option Z :=
  match alphabet with
  | EmptyString => None
  | String a rest =>
      if Ascii.eqb a c then Some 0 else option_map Z.succ (index_of c rest)
  end.

(** Modelled from the spec: [util.bdecode], which is not part of this file.
    An identifier is decoded over a fixed alphabet, most significant digit
    first; a character outside the alphabet is a [ValueError]. *)
Fixpoint bdecode_from (num : Z) (data alphabet : string) : result Z :=
  match data with
  | EmptyString => Ok num
  | String c rest =>
      match index_of c alphabet with
      | Some i => bdecode_from (num * Z.of_nat (String.length alphabet) + i) rest alphabet
      | None => Raise ValueError
      end
  end.

(** Modelled from the spec: [util.bdecode(data, alphabet)], from 0. *)
Definition bdecode (data alphabet : string) : result Z := bdecode_from 0 data alphabet.

Definition _decode (sid : string) : result Z :=
  bdecode sid "0123456789abcdefghijklmnopqrstuvwxyz".

(** [sid.rpartition('_')[2]] and [str.lower] on ASCII letters; a character
    outside ASCII is left as it is, where [str.lower] folds some of them. *)
Definition occurs (c : ascii) (s : string) : bool :=
  existsb (Ascii.eqb c) (list_ascii_of_string s).

Fixpoint after_last (c : ascii) (s : string) : string :=
  match s with
  | EmptyString => EmptyString
  | String a rest =>
      if occurs c rest then after_last c rest
      else if Ascii.eqb a c then rest
      else s
  end.

Definition lower_ascii (a : ascii) : ascii :=
  let n := nat_of_ascii a in
  if ((65 <=? n) && (n <=? 90))%nat then ascii_of_nat (n + 32) else a.

Fixpoint lower (s : string) : string :=
  match s with
  | EmptyString => EmptyString
  | String a rest => String (lower_ascii a) (lower rest)
  end.

Definition _parse_id (sid : option string) (default : Z) : result Z :=
  match sid with
  | Some v => if truthy sid then _decode (lower (after_last "_" v)) else Ok default
  | None => Ok default
  end.

(** The generator [_pagination(endpoint, params)]: before its first
    statement, at the head of [while True], inside the [for] loop over the
    children of a page, or over. *)
Inductive pg_state :=
  | PStart (p : params)
  | PLoop (id_min id_max : Z) (p : params)
  | PFor (id_min id_max : Z) (p : params) (children : list child) (after : option string)
  | PStop
  | PRaised (e : exn).

(** [self._call(endpoint, params)['data']] with its [children] and [after]. *)
Definition listing_of (b : body) : result (list child * option string) :=
  match b with
  | BListing children after => Ok (children, after)
  | BSubmission _ _ => Raise TypeError
  | _ => Raise (KeyError "data")
  end.

(** The filter of lines 306-307, with the short circuit of [and]. *)
Definition in_range (self : RedditAPI) (id_min id_max : Z) (c : child) : result bool :=
  if Qle_bool (date_min self) (child_created_utc c)
     && Qle_bool (child_created_utc c) (date_max self)
  then match _decode (child_id c) with
       | Ok n => Ok ((id_min <=? n) && (n <=? id_max))
       | Raise e => Raise e
       end
  else Ok false.

(** The body of the [for] loop for one child that passed the filter. *)
Definition pg_child (self : RedditAPI) (c : child) (s : state)
  : result (option api_pair) * state :=
  match c with
  | T3 post =>
      if negb (num_comments post =? 0) && negb (comments self =? 0)
      then match submission self (id post) s with
           | (Ok sc, s') => (Ok (Some sc), s')
           | (Raise AuthorizationError, s') => (Ok None, s')
           | (Raise e, s') => (Raise e, s')
           end
      else (Ok (Some (Some post, None)), s)
  | T1 c =>
      if negb (comments self =? 0)
      then (Ok (Some (None, Some (CTuple c))), s)
      else (Ok None, s)
  | TKind _ _ _ => (Ok None, s)
  end.

(** What one step of the generator shows: a value it yields, the listing
    call of line 300 with the parameters it passes, or nothing. *)
Inductive pg_obs :=
  | PYield (x : api_pair)
  | PCall (p : params)
  | PQuiet.

Definition pg_yield (o : option api_pair) : pg_obs :=
  match o with
  | Some x => PYield x
  | None => PQuiet
  end.

Definition pg_step (self : RedditAPI) (endpoint : string) (g : pg_state) (s : state)
  : pg_obs * pg_state * state :=
  match g with
  | PStart p =>
      match _parse_id (config_id_min self) 0 with
      | Raise e => (PQuiet, PRaised e, s)
      | Ok id_min =>
          match _parse_id (config_id_max self) 2147483647 with
          | Raise e => (PQuiet, PRaised e, s)
          | Ok id_max => (PQuiet, PLoop id_min id_max p, s)
          end
      end
  | PLoop id_min id_max p =>
      match _call self endpoint p s with
      | (Ok b, s') =>
          match listing_of b with
          | Ok (children, after) =>
              (PCall p, PFor id_min id_max (raw_json p) children after, s')
          | Raise e => (PCall p, PRaised e, s')
          end
      | (Raise e, s') => (PCall p, PRaised e, s')
      end
  | PFor id_min id_max p [] after =>
      match after with
      | Some a =>
          if truthy after
          then (PQuiet, PLoop id_min id_max (<["after" := PStr a]> p), s)
          else (PQuiet, PStop, s)
      | None => (PQuiet, PStop, s)
      end
  | PFor id_min id_max p (c :: children) after =>
      match in_range self id_min id_max c with
      | Raise e => (PQuiet, PRaised e, s)
      | Ok false => (PQuiet, PFor id_min id_max p children after, s)
      | Ok true =>
          match pg_child self c s with
          | (Ok o, s') => (pg_yield o, PFor id_min id_max p children after, s')
          | (Raise e, s') => (PQuiet, PRaised e, s')
          end
      end
  | PStop => (PQuiet, PStop, s)
  | PRaised e => (PQuiet, PRaised e, s)
  end.

Definition pg_trace (o : pg_obs) : list pg_obs :=
  match o with
  | PQuiet => []
  | _ => [o]
  end.

(** Consuming the generator: [fuel] steps, with what they show. *)
Fixpoint pg_run (self : RedditAPI) (endpoint : string) (fuel : nat)
    (g : pg_state) (s : state) : list pg_obs * pg_state * state :=
  match fuel with
  | O => ([], g, s)
  | S fuel =>
      let '(o, g', s') := pg_step self endpoint g s in
      let '(tr, g'', s'') := pg_run self endpoint fuel g' s' in
      (pg_trace o ++ tr, g'', s'')
  end.




(** The requests of a log sent to one url, by their parameters. *)
Definition gets_to (url : string) (l : list event) : list params :=
  flat_map (fun e => match e with
                     | EGet u p _ => if String.eqb u url then [p] else []
                     | _ => []
                     end) l.

(** ** [RedditExtractor]: [_urls] and [items] *)

(** A lazily produced sequence by what consuming it gives: the values it
    yields and, when it ends by an exception, that exception. *)
Record lazy (A : Type) := Lazy {
  yields : list A;
  ending : option exn;
}.
Arguments Lazy {A} yields ending.
Arguments yields {A} l.
Arguments ending {A} l.

(** A (submission, comments) pair as [_urls] consumes it. *)
Definition pair_ : Type := option post * option (lazy comment).

(** The metadata a link is emitted with: the post or the comment it is in. *)
Inductive meta :=
  | OfPost (p : post)
  | OfComment (c : comment).

(** [self] for the extractor: the option [recursion], the API as the
    extractor uses it ([self.api.submission], over a world [W] of its own),
    and the helpers of other modules: [text.extract_iter] from [ href=]
    with a double quote to the next double quote,
    the compiled [RedditSubmissionExtractor.pattern] with [match.group(1)],
    and [text.unescape]. *)
Record RedditExtractor (W : Type) := {
  max_depth : Z;
  api_submission : string -> W -> result pair_ * W;
  extract_iter : string -> list string;
  subre_match : string -> option string;
  unescape : string -> string;
}.
Arguments max_depth {W} r.
Arguments api_submission {W} r.
Arguments extract_iter {W} r.
Arguments subre_match {W} r.
Arguments unescape {W} r.

(** What the crawl does, in order: the version message, [_visited.add],
    a call of [self.api.submission], a [Message.Queue]. *)
Inductive action :=
  | Version (n : Z)
  | Visit (i : string)
  | Fetch (sid : string)
  | Queue (url : string) (data : meta).

Definition or_empty (o : option string) : string := default EmptyString o.

(** The (url, data) pairs [_urls] yields for one (submission, comments). *)
Definition post_urls {W} (self : RedditExtractor W) (p : post) : list (string * meta) :=
  (if negb (is_self p) then [(url p, OfPost p)] else [])
  ++ map (fun u => (u, OfPost p)) (extract_iter self (or_empty (selftext_html p))).

Definition comment_urls {W} (self : RedditExtractor W) (c : comment) : list (string * meta) :=
  map (fun u => (u, OfComment c)) (extract_iter self (or_empty (body_html c))).

(** The body of the [for] loop of [items] for one (url, data): nothing, a
    post to expand, or a message. *)
Inductive verdict :=
  | Skip
  | Extra (sid : string)
  | Emit (url : string) (data : meta).

Definition classify {W} (self : RedditExtractor W) (u : string) (data : meta) : result verdict :=
  match u with
  | EmptyString => Raise IndexError
  | String c _ =>
      if Ascii.eqb c "#" then Ok Skip
      else
        let u := if Ascii.eqb c "/" then "https://www.reddit.com" +:+ u else u in
        match subre_match self u with
        | Some sid => Ok (Extra sid)
        | None => Ok (Emit (unescape self u) data)
        end
  end.

(** The loop of [items] over a list of (url, data): the messages, the new
    [extra], and the exception that stopped it, if any. *)
Fixpoint scan {W} (self : RedditExtractor W) (l : list (string * meta))
    (extra : list string) : list action * list string * option exn :=
  match l with
  | [] => ([], extra, None)
  | (u, data) :: l =>
      match classify self u data with
      | Raise e => ([], extra, Some e)
      | Ok Skip => scan self l extra
      | Ok (Extra sid) => scan self l (extra ++ [sid])
      | Ok (Emit u' data') =>
          let '(acts, extra', e) := scan self l extra in
          (Queue u' data' :: acts, extra', e)
      end
  end.

Record crawl (W : Type) := Crawl {
  visited : gset string;
  world : W;
}.
Arguments Crawl {W} visited world.
Arguments visited {W} c.
Arguments world {W} c.

(** One (submission, comments) pair through [_urls] and the loop body. *)
Definition do_pair {W} (self : RedditExtractor W) (p : pair_) (extra : list string)
    (c : crawl W) : list action * list string * option exn * crawl W :=
  let '(acts1, c1, urls1) :=
    match fst p with
    | Some sub => ([Visit (id sub)], Crawl ({[ id sub ]} ∪ visited c) (world c),
                   post_urls self sub)
    | None => ([], c, [])
    end in
  let '(urls2, fin) :=
    match snd p with
    | Some cs => (flat_map (comment_urls self) (yields cs), ending cs)
    | None => ([], None)
    end in
  let '(acts, extra', e) := scan self (urls1 ++ urls2) extra in
  (acts1 ++ acts, extra', match e with Some x => Some x | None => fin end, c1).

(** The iterable [submissions]: what the caller's [submissions()] gives, or
    the generator expression of lines 53-56 over the previous [extra]. *)
Inductive source :=
  | Given (pairs : lazy pair_)
  | Expand (extra : list string).

Fixpoint do_pairs {W} (self : RedditExtractor W) (ps : list pair_) (fin : option exn)
    (extra : list string) (c : crawl W)
  : list action * list string * option exn * crawl W :=
  match ps with
  | [] => ([], extra, fin, c)
  | p :: ps =>
      match do_pair self p extra c with
      | (acts, extra', Some e, c') => (acts, extra', Some e, c')
      | (acts, extra', None, c') =>
          let '(acts', extra'', e, c'') := do_pairs self ps fin extra' c' in
          (acts ++ acts', extra'', e, c'')
      end
  end.

Fixpoint do_expand {W} (self : RedditExtractor W) (sids : list string)
    (extra : list string) (c : crawl W)
  : list action * list string * option exn * crawl W :=
  match sids with
  | [] => ([], extra, None, c)
  | sid :: sids =>
      if decide (sid ∈ visited c) then do_expand self sids extra c
      else
        match api_submission self sid (world c) with
        | (Raise e, w) => ([Fetch sid], extra, Some e, Crawl (visited c) w)
        | (Ok p, w) =>
            match do_pair self p extra (Crawl (visited c) w) with
            | (acts, extra', Some e, c') => (Fetch sid :: acts, extra', Some e, c')
            | (acts, extra', None, c') =>
                let '(acts', extra'', e, c'') := do_expand self sids extra' c' in
                (Fetch sid :: acts ++ acts', extra'', e, c'')
            end
        end
  end.

(** One pass of the [for] loop of line 38 over a source, from [extra = []]. *)
Definition round {W} (self : RedditExtractor W) (src : source) (c : crawl W)
  : list action * list string * option exn * crawl W :=
  match src with
  | Given ps => do_pairs self (yields ps) (ending ps) [] c
  | Expand sids => do_expand self sids [] c
  end.

Inductive status :=
  | Returned
  | Raised (e : exn)
  | Running.

(** The [while True] loop of [items], [fuel] rounds of it. *)
Fixpoint items_loop {W} (self : RedditExtractor W) (fuel : nat) (depth : Z)
    (src : source) (c : crawl W) : list action * status * crawl W :=
  match fuel with
  | O => ([], Running, c)
  | S fuel =>
      match round self src c with
      | (acts, _, Some e, c') => (acts, Raised e, c')
      | (acts, extra, None, c') =>
          if is_nil extra || (depth =? max_depth self)
          then (acts, Returned, c')
          else
            let '(acts', st, c'') := items_loop self fuel (depth + 1) (Expand extra) c' in
            (acts ++ acts', st, c'')
      end
  end.

Definition items {W} (self : RedditExtractor W) (fuel : nat) (submissions : lazy pair_)
    (c : crawl W) : list action * status * crawl W :=
  let '(acts, st, c') := items_loop self fuel 0 (Given submissions) c in
  (Version 1 :: acts, st, c').

Definition fetched (acts : list action) : list string :=
  flat_map (fun a => match a with Fetch sid => [sid] | _ => [] end) acts.
Definition visits (acts : list action) : list string :=
  flat_map (fun a => match a with Visit i => [i] | _ => [] end) acts.
Definition messages (acts : list action) : list (string * meta) :=
  flat_map (fun a => match a with Queue u d => [(u, d)] | _ => [] end) acts.

(** ** Concrete inputs

    A server that grants a token and answers every call with an empty list
    of things and no rate-limit headers; [int] and [float] on strings of
    decimal digits, which is all the inputs below contain. *)
Fixpoint digits_from (num : Z) (s : string) : option Z :=
  match s with
  | EmptyString => Some num
  | String c rest =>
      match index_of c "0123456789" with
      | Some d => digits_from (num * 10 + d) rest
      | None => None
      end
  end.

Definition int_of_digits (s : string) : option Z :=
  match s with
  | EmptyString => None
  | _ => digits_from 0 s
  end.

Definition float_of_digits (s : string) : option fval :=
  option_map (fun n => FFinite (inject_Z n)) (int_of_digits s).

(** A [time.sleep] that refuses the waits the clock's type cannot hold
    (in seconds, above 9223372036) and sleeps otherwise. *)
Definition sleep_in_range (wait : Z) : option exn :=
  if 9223372036 <? wait then Some OverflowError else None.

Definition granted : token_response :=
  TokenResponse 200 (Some (TokenJson None None (Some "abc123"))).

Definition answering (r : response) : RedditAPI := {|
  comments := 500;
  morecomments := true;
  refresh_token := None;
  client_id := Some "6N9uN0krSDE-ig";
  config_id_min := None;
  config_id_max := None;
  date_min := 0;
  date_max := inject_Z 253402210800;
  token_server := fun _ _ _ => Ok granted;
  api_server := fun _ _ _ _ => Ok r;
  py_float := float_of_digits;
  py_int := int_of_digits;
  time_sleep := sleep_in_range;
|}.

Definition no_things : RedditAPI := answering (Response ∅ (Some (BThings []))).

Definition start : state := State 0 ∅ None [] ∅.

Definition morechildren_url : string := "https://oauth.reddit.com/api/morechildren".

(** The identifiers [c0], [c1], ... *)
Definition child_ids (n : nat) : list string :=
  map (fun k => "c" +:+ pretty k) (seq 0 n).

Definition cm (i : string) : comment := Comment i 0 None.

(** A listing of two pages: the first request gets one post and the cursor
    ['t3_8cqhub'], a request with a cursor gets one post and no cursor. *)
Definition a_post (i : string) : post :=
  Post i (inject_Z 1523858763) 0 false "https://example.org/a.jpg" None.

Definition two_pages : RedditAPI := {|
  comments := 0;
  morecomments := false;
  refresh_token := None;
  client_id := Some "6N9uN0krSDE-ig";
  config_id_min := None;
  config_id_max := None;
  date_min := 0;
  date_max := inject_Z 253402210800;
  token_server := fun _ _ _ => Ok granted;
  api_server := fun _ _ p _ =>
    match p !! "after" with
    | None => Ok (Response ∅ (Some (BListing [T3 (a_post "8cqhub")] (Some "t3_8cqhub"))))
    | Some _ => Ok (Response ∅ (Some (BListing [T3 (a_post "2a00np")] None)))
    end;
  py_float := float_of_digits;
  py_int := int_of_digits;
  time_sleep := sleep_in_range;
|}.


(** ** The helpers of [items] *)

(** The double quote character, as a string. *)
Definition dq : string := String "034" EmptyString.

(** [s.index(pat)]: what precedes and what follows the first occurrence of
    [pat] in [s]. *)
Fixpoint drop_string (n : nat) (s : string) : string :=
  match n, s with
  | S n, String _ rest => drop_string n rest
  | _, _ => s
  end.

Fixpoint starts_with (pat s : string) : bool :=
  match pat, s with
  | EmptyString, _ => true
  | String a pat, String b s => Ascii.eqb a b && starts_with pat s
  | String _ _, EmptyString => false
  end.

Fixpoint split_first (pat s : string) : option (string * string) :=
  if starts_with pat s then Some (EmptyString, drop_string (String.length pat) s)
  else match s with
       | EmptyString => None
       | String c rest =>
           match split_first pat rest with
           | Some (before, after) => Some (String c before, after)
           | None => None
           end
       end.

(** Modelled from the spec: [text.extract_iter], which is not part of this
    file.  The anchor targets of an HTML body: the texts between each
    [begin] and the next [end], from left to right. *)
Fixpoint extract_iter_from (fuel : nat) (txt begin end_ : string) : list string :=
  match fuel with
  | O => []
  | S fuel =>
      match split_first begin txt with
      | None => []
      | Some (_, rest) =>
          match split_first end_ rest with
          | None => []
          | Some (value, rest') => value :: extract_iter_from fuel rest' begin end_
          end
      end
  end.

(** Modelled from the spec: [text.extract_iter(txt, begin, end)]; every
    value found shortens the text, so its length bounds the loop. *)
Definition text_extract_iter (txt begin end_ : string) : list string :=
  extract_iter_from (S (String.length txt)) txt begin end_.

(** [text.extract_iter] from [ href=] with a double quote to the next
    double quote. *)
Definition href_targets (txt : string) : list string :=
  text_extract_iter txt (" href=" +:+ dq) dq.

(** [RedditSubmissionExtractor.pattern] (lines 129-132) under [re.match],
    with [group(1)], on ASCII text.  Every repetition in the pattern is
    followed by a character outside its class, so only the longest run can
    match and the alternatives are tried in the order of the pattern. *)
Fixpoint span (f : ascii -> bool) (s : string) : string * string :=
  match s with
  | EmptyString => (EmptyString, EmptyString)
  | String c rest =>
      if f c then let '(a, b) := span f rest in (String c a, b)
      else (EmptyString, s)
  end.

Definition strip_prefix (pre s : string) : option string :=
  if starts_with pre s then Some (drop_string (String.length pre) s) else None.

Definition between (lo hi : nat) (c : ascii) : bool :=
  let n := nat_of_ascii c in ((lo <=? n) && (n <=? hi))%nat.

(** [[a-z0-9]], [\w] and [[^/?&#]], on ASCII text: a character outside
    ASCII is no word character here, where [\w] of a Python [str] pattern
    also takes the letters and digits of other scripts. *)
Definition is_id_char (c : ascii) : bool := between 97 122 c || between 48 57 c.
Definition is_word_char (c : ascii) : bool :=
  is_id_char c || between 65 90 c || Ascii.eqb c "_".
Definition is_name_char (c : ascii) : bool :=
  negb (Ascii.eqb c "/" || Ascii.eqb c "?" || Ascii.eqb c "&" || Ascii.eqb c "#").

Definition orelse {A} (a b : option A) : option A :=
  match a with Some x => Some x | None => b end.

(** [/([a-z0-9]+)] *)
Definition match_id (s : string) : option string :=
  match strip_prefix "/" s with
  | Some r => let '(g, _) := span is_id_char r in
              if String.eqb g EmptyString then None else Some g
  | None => None
  end.

(** [reddit\.com/r/[^/?&#]+/comments] and the rest *)
Definition match_comments (s : string) : option string :=
  match strip_prefix "reddit.com/r/" s with
  | Some r =>
      let '(name, r') := span is_name_char r in
      if String.eqb name EmptyString then None
      else match strip_prefix "/comments" r' with
           | Some r'' => match_id r''
           | None => None
           end
  | None => None
  end.

(** [(?:\w+\.)?] before it *)
Definition match_long (s : string) : option string :=
  let '(w, r) := span is_word_char s in
  orelse
    (if String.eqb w EmptyString then None
     else match strip_prefix "." r with
          | Some r' => match_comments r'
          | None => None
          end)
    (match_comments s).

Definition match_short (s : string) : option string :=
  match strip_prefix "redd.it" s with
  | Some r => match_id r
  | None => None
  end.

Definition match_host (s : string) : option string :=
  orelse (match_long s) (match_short s).

Definition submission_pattern_match (u : string) : option string :=
  orelse
    (match strip_prefix "https://" u with Some r => match_host r | None => None end)
    (orelse
       (match strip_prefix "http://" u with Some r => match_host r | None => None end)
       (match_host u)).

(** A [RedditExtractor] over an API, with these helpers; [text.unescape] is
    the identity on text without character references. *)
Definition extractor_for {W} (recursion : Z)
    (api : string -> W -> result pair_ * W) : RedditExtractor W := {|
  max_depth := recursion;
  api_submission := api;
  extract_iter := href_targets;
  subre_match := submission_pattern_match;
  unescape := fun u => u;
|}.

(** An endless chain of posts: the post [sid] is a link post to an image
    whose text links to the post [a ++ sid]. *)
Definition anchor (target : string) : string :=
  "<a href=" +:+ dq +:+ target +:+ dq +:+ ">next</a>".

Definition chain_post (sid : string) : post :=
  Post sid (inject_Z 1523858763) 0 false "https://example.org/a.jpg"
    (Some (anchor ("https://redd.it/" +:+ String "a" sid))).

Definition chain_api (sid : string) (w : unit) : result pair_ * unit :=
  (Ok (Some (chain_post sid), None), w).

Definition chain (recursion : Z) : RedditExtractor unit :=
  extractor_for recursion chain_api.

Definition chain_start : lazy pair_ := Lazy [(Some (chain_post "a"), None)] None.

Definition fresh_crawl : crawl unit := Crawl ∅ tt.

Definition status_of {W} (r : list action * status * crawl W) : status := snd (fst r).
Definition actions_of {W} (r : list action * status * crawl W) : list action := fst (fst r).

(** The visited set after a sequence of actions, and the sequences in which
    every fetch is of an identifier not in the set at that moment. *)
Fixpoint seen (V : gset string) (acts : list action) : gset string :=
  match acts with
  | [] => V
  | Visit i :: l => seen ({[ i ]} ∪ V) l
  | _ :: l => seen V l
  end.



(** An API of text posts without links, and a post with two comments that
    link to the same post. *)
Definition leaf_api (sid : string) (w : unit) : result pair_ * unit :=
  (Ok (Some (Post sid (inject_Z 1523858763) 0 true EmptyString None), None), w).

Definition linking (i : string) : comment :=
  Comment i (inject_Z 1523858763) (Some (anchor "https://redd.it/2a00np")).

Definition twice_linked : lazy pair_ :=
  Lazy [(Some (Post "8cqhub" (inject_Z 1523858763) 2 true EmptyString None),
         Some (Lazy [linking "dxh1"; linking "dxh2"] None))] None.

(** How the loop of [items] ends when it does not go on after a round. *)
Definition stop_after {W} (r : list action * list string * option exn * crawl W)
  : list action * status * crawl W :=
  let '(acts, _, e, c) := r in
  (acts, match e with Some x => Raised x | None => Returned end, c).

(** The identifiers [a], [aa], [aaa], ... of the chain. *)
Fixpoint chain_id (k : nat) : string :=
  match k with
  | O => "a"
  | S k => String "a" (chain_id k)
  end.

Definition no_dq (u : string) : bool :=
  forallb (fun c => negb (Ascii.eqb c "034")) (list_ascii_of_string u).

(** ** Predicates of the statements and the inputs of their examples *)

(** What a 'more' entry adds to [extra]: its identifiers when a [link_id]
    was given, nothing otherwise. *)
Definition more_ids (link_id : option string) (ids : list string) : list string :=
  if truthy link_id then ids else [].

Definition is_comment (t : thing) : bool :=
  match t with TComment _ _ => true | TMore _ => false end.

(** An API whose [morechildren] calls all succeed, each with one request,
    and return comments only. *)
Definition answers_comments (self : RedditAPI) : Prop :=
  ∀ p s, ∃ things s',
    _call self "/api/morechildren" p s = (Ok (BThings things), s')
    ∧ forallb is_comment things = true
    ∧ gets_to morechildren_url (log s') = gets_to morechildren_url (log s) ++ [raw_json p].

(** The [children] parameter of a request. *)
Definition children_of (p : params) : option pval := p !! "children".

(** Once the loop over the queue is left, the list object is empty and
    stays so. *)
Definition drained (queue : loc) (f : fl_state) (s : state) : Prop :=
  match f with
  | FLoop _ | FYield _ _ _ => True
  | _ => deref queue s = []
  end.


(** The bounds of a generator started without [id-min] and [id-max]. *)
Definition default_bounds (g : pg_state) : Prop :=
  match g with
  | PLoop a b _ | PFor a b _ _ _ => a = 0 ∧ b = 2147483647
  | _ => True
  end.





Definition forbidden : response :=
  Response ∅ (Some (BError (JNum (inject_Z 403)) (Some (JStr "Forbidden")))).

(** ** Further definitions: the whole of a comment tree *)

(** The comments of an entry and of a queue, depth first. *)
Fixpoint comments_of (t : thing) : list comment :=
  match t with
  | TMore _ => []
  | TComment data replies =>
      data :: match replies with
              | Some r => (fix go (l : list thing) : list comment :=
                             match l with [] => [] | x :: l => comments_of x ++ go l end) r
              | None => []
              end
  end.

Definition all_comments (q : list thing) : list comment := flat_map comments_of q.

(** The identifiers of the entries of kind more of an entry and of a queue. *)
Fixpoint stubs_of (t : thing) : list string :=
  match t with
  | TMore ids => ids
  | TComment _ replies =>
      match replies with
      | Some r => (fix go (l : list thing) : list string :=
                     match l with [] => [] | x :: l => stubs_of x ++ go l end) r
      | None => []
      end
  end.

Definition all_stubs (q : list thing) : list string := flat_map stubs_of q.

(** The identifiers of the entries of kind more at the top of a list. *)
Definition stubs (things : list thing) : list string :=
  flat_map (fun t => match t with TMore ids => ids | TComment _ _ => [] end) things.

(** The state of [_flatten] while it delegates to a [morechildren] in
    state [m]. *)
Definition delegate (m : mc_state) : fl_state :=
  match m with
  | MStop => FStop
  | MRaised e => FRaised e
  | _ => FMore m
  end.

Definition mc_over (m : mc_state) : bool :=
  match m with MStop | MRaised _ => true | _ => false end.

(** The requests of a log: url and parameters. *)
Definition requests (l : list event) : list (string * params) :=
  flat_map (fun e => match e with EGet u p _ => [(u, p)] | _ => [] end) l.

(** The parameters [morechildren] starts from, and the request it sends for
    a block of identifiers: its endpoint with [link_id], [api_type],
    [raw_json] and the comma-joined block as [children], and nothing
    else. *)
Definition mc_base (link_id : string) : params :=
  <["api_type" := PStr "json"]> (<["link_id" := PStr link_id]> ∅).

Definition mc_request (link_id : string) (block : list string) : string * params :=
  (morechildren_url,
   <["raw_json" := PInt 1]> (<["children" := PStr (join "," block)]> (mc_base link_id))).

(** The parameters of a generator are those it started from, but for
    [children] and [raw_json]. *)
Definition mc_kept (link_id : string) (p : params) : Prop :=
  ∀ k, k ≠ "children" → k ≠ "raw_json" → p !! k = mc_base link_id !! k.

(** The list [children], the index and the flag [done] of a generator. *)
Definition mc_cs (m : mc_state) : list string :=
  match m with
  | MLoop _ c _ _ | MFor _ c _ _ _ => c
  | _ => []
  end.

Definition mc_index (m : mc_state) : nat :=
  match m with
  | MLoop _ _ i _ | MFor _ _ i _ _ => i
  | _ => O
  end.

Definition mc_done (m : mc_state) : bool :=
  match m with
  | MLoop _ _ _ d | MFor _ _ _ d _ => d
  | _ => true
  end.

(** While [done] is not set the index has not passed the end of the
    list. *)
Definition mc_wf (link_id : string) (m : mc_state) : Prop :=
  match m with
  | MLoop p c i d | MFor p c i d _ =>
      mc_kept link_id p ∧ (d = false → (i ≤ length c)%nat)
  | _ => True
  end.

(** The list of a generator that is not over is [cs]. *)
Definition mc_holds (m : mc_state) (cs : list string) : Prop :=
  match m with
  | MLoop _ c _ _ | MFor _ c _ _ _ => c = cs
  | _ => True
  end.

(** A yielded pair that is an item of the listing itself passed the filter
    with the bounds [a] and [b]. *)
Definition passed (self : RedditAPI) (a b : Z) (o : pg_obs) : Prop :=
  match o with
  | PYield (Some post, None) => in_range self a b (T3 post) = Ok true
  | PYield (None, Some (CTuple c)) => in_range self a b (T1 c) = Ok true
  | _ => True
  end.

(** The bounds of a generator are [a] and [b]. *)
Definition pg_bounds (self : RedditAPI) (a b : Z) (g : pg_state) : Prop :=
  match g with
  | PStart _ =>
      _parse_id (config_id_min self) 0 = Ok a
      ∧ _parse_id (config_id_max self) 2147483647 = Ok b
  | PLoop a' b' _ | PFor a' b' _ _ _ => a' = a ∧ b' = b
  | _ => True
  end.



(** A yielded pair is a post of the listing without comments. *)
Definition post_only (o : pg_obs) : Prop :=
  match o with
  | PYield x => is_Some (fst x) ∧ snd x = None
  | _ => True
  end.

(** Every character of a string satisfies a test. *)
Definition all_chars (f : ascii -> bool) (s : string) : bool :=
  forallb f (list_ascii_of_string s).

(** A string is empty or begins with a character that fails a test. *)
Definition stops (f : ascii -> bool) (s : string) : bool :=
  match s with
  | EmptyString => true
  | String c _ => negb (f c)
  end.

(** The url [items] tests against the pattern: a root-relative one is put
    under [https://www.reddit.com] (lines 41-42). *)
Definition absolute (u : string) : string :=
  match u with
  | String c _ => if Ascii.eqb c "/" then "https://www.reddit.com" +:+ u else u
  | EmptyString => u
  end.

Definition is_empty (u : string) : bool :=
  match u with EmptyString => true | _ => false end.

(** An identifier the pattern captured from some url, and a message whose
    url the pattern did not match. *)
Definition captured {W} (self : RedditExtractor W) (sid : string) : Prop :=
  ∃ u, subre_match self u = Some sid.

Definition unmatched {W} (self : RedditExtractor W) (a : action) : Prop :=
  match a with
  | Queue u _ => ∃ u0, u = unescape self u0 ∧ subre_match self u0 = None
  | _ => True
  end.

Definition src_captured {W} (self : RedditExtractor W) (src : source) : Prop :=
  match src with
  | Given _ => True
  | Expand sids => Forall (captured self) sids
  end.

(** The authorization a request of a log was sent with. *)
Definition authorizations (l : list event) : list (option string) :=
  flat_map (fun e => match e with EGet _ _ a => [a] | _ => [] end) l.

(** ** [items] over a listing

    For a subreddit or a user, [submissions] is the [_pagination] generator
    of the extractor's own API: [_urls] pulls the pairs from it one by one,
    and the comments of a pair from their [_flatten] generator one by one,
    while [items] handles every link before the next one is produced.  The
    world of the crawl is the API's state. *)











(** * Properties *)

(** ** The heap cell of a queue *)

Lemma deref_assign queue l s : deref queue (assign queue l s) = l.
Proof. unfold deref, assign. simpl. by rewrite lookup_insert_eq. Qed.

Lemma assign_assign queue l l' s : assign queue l (assign queue l' s) = assign queue l s.
Proof. unfold assign, set_heap. simpl. by rewrite insert_insert_eq. Qed.

(** ** The order of [_flatten] *)

Lemma weight_replies data r : weight (TComment data (Some r)) = S (weights r).
Proof.
  reflexivity.
Qed.

Lemma weights_app q r : weights (q ++ r) = (weights q + weights r)%nat.
Proof. induction q as [|x q IH]; simpl; [done|]. rewrite IH. lia. Qed.

Lemma weights_replies data replies q :
  weights (TComment data replies :: q) = S (weights (q ++ default [] replies)).
Proof.
  rewrite weights_app. destruct replies as [r|].
  - change (weights (TComment data (Some r) :: q))
      with (weight (TComment data (Some r)) + weights q)%nat.
    rewrite weight_replies. simpl. lia.
  - simpl. lia.
Qed.

(** More fuel than the weight of the queue changes nothing. *)
Lemma queue_order_fuel k : ∀ q k',
  (weights q ≤ k)%nat → (weights q ≤ k')%nat → queue_order k q = queue_order k' q.
Proof.
  induction k as [|k IH]; intros q k' Hk Hk'.
  - destruct q as [|[ids|data replies] q]; simpl in Hk; [by destruct k' | lia | lia].
  - destruct q as [|[ids|data replies] q]; [by destruct k' | |].
    + destruct k' as [|k']; [simpl in Hk'; lia|]. simpl in *. apply IH; lia.
    + rewrite weights_replies in Hk, Hk'.
      destruct k' as [|k']; [lia|]. simpl. f_equal. apply IH; lia.
Qed.

Lemma queue_extra_fuel k : ∀ q k',
  (weights q ≤ k)%nat → (weights q ≤ k')%nat → queue_extra k q = queue_extra k' q.
Proof.
  induction k as [|k IH]; intros q k' Hk Hk'.
  - destruct q as [|[ids|data replies] q]; simpl in Hk; [by destruct k' | lia | lia].
  - destruct q as [|[ids|data replies] q]; [by destruct k' | |].
    + destruct k' as [|k']; [simpl in Hk'; lia|]. simpl in *. f_equal. apply IH; lia.
    + rewrite weights_replies in Hk, Hk'.
      destruct k' as [|k']; [lia|]. simpl. apply IH; lia.
Qed.

Lemma flat_nil : flat [] = [].
Proof. done. Qed.

Lemma flat_more ids q : flat (TMore ids :: q) = flat q.
Proof. done. Qed.

Lemma flat_comment data replies q :
  flat (TComment data replies :: q) = data :: flat (q ++ default [] replies).
Proof. unfold flat. rewrite weights_replies. done. Qed.

(** Level order: the comments at the front of the queue, then what their
    replies give, after the rest of the queue. *)
Lemma flat_app q : ∀ r, flat (q ++ r) = heads q ++ flat (r ++ kids q).
Proof.
  induction q as [|[ids|data replies] q IH]; intros r.
  - simpl. by rewrite app_nil_r.
  - simpl. rewrite flat_more. apply IH.
  - change ((TComment data replies :: q) ++ r) with (TComment data replies :: (q ++ r)).
    rewrite flat_comment, <- app_assoc, IH. simpl. rewrite <- app_assoc.
    by destruct replies.
Qed.

Lemma flat_levels q : flat q = heads q ++ flat (kids q).
Proof. rewrite <- (app_nil_r q) at 1. by rewrite flat_app. Qed.

(** Runs compose. *)
Lemma fl_run_add self queue link_id n m f s :
  fl_run self queue link_id (n + m) f s =
  let '(ys, f', s') := fl_run self queue link_id n f s in
  let '(zs, f'', s'') := fl_run self queue link_id m f' s' in
  (ys ++ zs, f'', s'').
Proof.
  revert f s. induction n as [|n IH]; intros f s; simpl.
  - by destruct (fl_run self queue link_id m f s) as [[zs f''] s''].
  - destruct (fl_step self queue link_id f s) as [[o f'] s'].
    rewrite IH.
    destruct (fl_run self queue link_id n f' s') as [[ys f1] s1].
    destruct (fl_run self queue link_id m f1 s1) as [[zs f2] s2].
    by rewrite app_assoc.
Qed.

(** The queue phase: the loop runs until the list object is empty, yields
    the queue in the order [queue_order], and leaves the identifiers of the
    'more' entries in [extra] when a [link_id] was given. *)
Lemma fl_drain self queue link_id k : ∀ q s extra,
  deref queue s = q → (weights q ≤ k)%nat →
  ∃ n s', fl_run self queue link_id n (FLoop extra) s =
          (queue_order k q, FLoop (extra ++ more_ids link_id (queue_extra k q)), s')
          ∧ deref queue s' = []
          ∧ assign queue [] s' = assign queue [] s.
Proof.
  induction k as [|k IH]; intros q s extra Hq Hk.
  - destruct q as [|[ids|data replies] q]; simpl in Hk; [|lia|lia].
    exists O, s. simpl. unfold more_ids. destruct (truthy link_id); by rewrite app_nil_r.
  - destruct q as [|[ids|data replies] q].
    + exists O, s. simpl. unfold more_ids. destruct (truthy link_id); by rewrite app_nil_r.
    + simpl in Hk.
      destruct (IH q (assign queue q s)
                  (if truthy link_id then extra ++ ids else extra)
                  (deref_assign _ _ _) ltac:(lia)) as (n & s' & Hn & Hd & Ha).
      exists (S n), s'. simpl. rewrite Hq, Hn. simpl.
      split; [|split; [done | by rewrite Ha, assign_assign]].
      replace ((if truthy link_id then extra ++ ids else extra)
               ++ more_ids link_id (queue_extra k q))
        with (extra ++ more_ids link_id (ids ++ queue_extra k q)); [done|].
      unfold more_ids. destruct (truthy link_id); [by rewrite app_assoc | done].
    + rewrite weights_replies in Hk.
      set (q' := q ++ default [] replies).
      assert (Hs : ∃ s1, fl_step self queue link_id (FYield data replies extra)
                           (assign queue q s) = (None, FLoop extra, s1)
                         ∧ deref queue s1 = q'
                         ∧ assign queue [] s1 = assign queue [] s).
      { destruct replies as [r|]; simpl.
        - eexists; split; [done|]. rewrite deref_assign.
          split; [by rewrite deref_assign | by rewrite !assign_assign].
        - eexists; split; [done|]. unfold q'. simpl. rewrite app_nil_r.
          split; [by rewrite deref_assign | by rewrite assign_assign]. }
      destruct Hs as (s1 & Hstep & Hd & Ha).
      destruct (IH q' s1 extra Hd ltac:(unfold q'; lia)) as (n & s' & Hn & Hd' & Ha').
      exists (S (S n)), s'.
      change (fl_run self queue link_id (S (S n)) (FLoop extra) s)
        with (let '(o, f', s') := fl_step self queue link_id (FLoop extra) s in
              let '(ys, f'', s'') := fl_run self queue link_id (S n) f' s' in
              (option_list o ++ ys, f'', s'')).
      simpl fl_step at 1. rewrite Hq.
      change (fl_run self queue link_id (S n) (FYield data replies extra) (assign queue q s))
        with (let '(o, f', s') := fl_step self queue link_id (FYield data replies extra)
                                    (assign queue q s) in
              let '(ys, f'', s'') := fl_run self queue link_id n f' s' in
              (option_list o ++ ys, f'', s'')).
      rewrite Hstep, Hn. simpl. fold q'.
      split; [done|]. split; [done | by rewrite Ha', Ha].
Qed.

(** Enough steps drain the queue of a new generator. *)
Lemma fl_drain_flat self queue link_id s :
  ∃ n s', fl_run self queue link_id n _flatten s =
          (flat (deref queue s),
           FLoop (more_ids link_id (queue_extra (weights (deref queue s)) (deref queue s))),
           s')
          ∧ deref queue s' = []
          ∧ assign queue [] s' = assign queue [] s.
Proof.
  destruct (fl_drain self queue link_id (weights (deref queue s)) (deref queue s) s []
              eq_refl (Nat.le_refl _)) as (n & s' & H).
  by exists n, s'.
Qed.

(** ** What [_call] leaves alone *)

Ltac unfold_call :=
  unfold _call, authenticate, cached_authenticate_impl, _authenticate_impl,
    request, ratelimit, sleep, bind, lift, gets, modify, ret, raise in *.

Lemma authenticate_heap self s r s' :
  authenticate self s = (r, s') → heap s' = heap s.
Proof.
  unfold_call. intros H.
  repeat (case_match; simplify_eq; simpl in *; try done).
Qed.

Lemma call_heap self endpoint p s r s' :
  _call self endpoint p s = (r, s') → heap s' = heap s.
Proof.
  unfold _call, bind. intros H.
  destruct (authenticate self s) as [[[]|e] s1] eqn:Ha;
    apply authenticate_heap in Ha; [|by simplify_eq].
  unfold request, ratelimit, sleep, bind, lift, gets, modify, ret, raise in H.
  rewrite <- Ha.
  repeat (case_match; simplify_eq; simpl in *; try done).
Qed.

Lemma mc_step_heap self m s o m' s' :
  mc_step self m s = (o, m', s') → heap s' = heap s.
Proof.
  destruct m as [p children index done|p children index done things| |e]; simpl; intros H.
  - destruct done; [by simplify_eq|].
    destruct (_call self "/api/morechildren" _ s) as [[b|e] s1] eqn:Hc;
      apply call_heap in Hc; repeat case_match; simplify_eq; congruence.
  - repeat case_match; by simplify_eq.
  - by simplify_eq.
  - by simplify_eq.
Qed.

Lemma deref_heap queue s s' : heap s' = heap s → deref queue s' = deref queue s.
Proof. unfold deref. by intros ->. Qed.

Lemma fl_step_drained self queue link_id f s o f' s' :
  fl_step self queue link_id f s = (o, f', s') →
  drained queue f s → drained queue f' s'.
Proof.
  destruct f as [extra|data replies extra|m| |e]; simpl; intros H Hd.
  - destruct (deref queue s) as [|[ids|data replies] q] eqn:Hq;
      repeat case_match; simplify_eq; simpl; done.
  - repeat case_match; simplify_eq; simpl; done.
  - destruct (mc_step self m s) as [[o1 m1] s1] eqn:Hm.
    apply mc_step_heap in Hm. apply (deref_heap queue) in Hm.
    destruct m1; simplify_eq; simpl; congruence.
  - by simplify_eq.
  - by simplify_eq.
Qed.

Lemma fl_run_drained self queue link_id n : ∀ f s ys f' s',
  fl_run self queue link_id n f s = (ys, f', s') →
  drained queue f s → drained queue f' s'.
Proof.
  induction n as [|n IH]; simpl; intros f s ys f' s' H Hd.
  - by simplify_eq.
  - destruct (fl_step self queue link_id f s) as [[o f1] s1] eqn:Hs.
    destruct (fl_run self queue link_id n f1 s1) as [[zs f2] s2] eqn:Hr.
    simplify_eq. eapply IH; [done|]. by eapply fl_step_drained.
Qed.

(** A generator that is over yields nothing more. *)
Lemma fl_run_over self queue link_id n f s :
  fl_over f = true → fl_run self queue link_id n f s = ([], f, s).
Proof.
  intros Hf. induction n as [|n IH]; [done|].
  destruct f; try done; simpl in *; by rewrite IH.
Qed.

(** A new generator over an empty list object stops at once. *)
Lemma fl_run_empty self queue link_id n s :
  deref queue s = [] → fl_run self queue link_id (S n) _flatten s = ([], FStop, s).
Proof.
  intros Hq. unfold _flatten. simpl. rewrite Hq.
  destruct link_id as [l|]; simpl.
  - rewrite andb_false_r. by rewrite fl_run_over.
  - by rewrite fl_run_over.
Qed.

(** ** Claims on [_flatten] and [morechildren] *)

(** C2. [_flatten] yields in the order of its queue: a comment popped from
    the front is yielded and its replies go to the tail of the same list;
    the whole output is the comments at the front of the queue, in order,
    before anything their replies give; with top-level replies [c1; c2]
    and [c1a] under [c1] the order is [c1; c2; c1a]. *)
Theorem flatten_queue_order (self : RedditAPI) (queue : loc) (link_id : option string)
    (s : state) :
  (∀ data replies q extra,
      fl_run self queue link_id 2 (FLoop extra) (assign queue (TComment data replies :: q) s)
      = ([data], FLoop extra, assign queue (q ++ default [] replies) s))
  ∧ (∃ n extra s',
        fl_run self queue link_id n _flatten s = (flat (deref queue s), FLoop extra, s')
        ∧ deref queue s' = [])
  ∧ (∃ n s', fl_run self queue None n _flatten s = (flat (deref queue s), FStop, s'))
  ∧ flat (deref queue s) = heads (deref queue s) ++ flat (kids (deref queue s))
  ∧ (∀ c1 c2 c1a,
        flat [TComment c1 (Some [TComment c1a None]); TComment c2 None] = [c1; c2; c1a]).
Proof.
  split; [|split; [|split; [|split]]].
  - intros data replies q extra. simpl. rewrite !deref_assign.
    destruct replies as [r|]; simpl.
    + by rewrite deref_assign, !assign_assign.
    + by rewrite app_nil_r, !assign_assign.
  - destruct (fl_drain_flat self queue link_id s) as (n & s' & Hn & Hd & _).
    eexists n, _, s'. eauto.
  - destruct (fl_drain_flat self queue None s) as (n & s' & Hn & Hd & _).
    exists (n + 1)%nat, s'. rewrite fl_run_add, Hn. simpl. rewrite Hd.
    by rewrite app_nil_r.
  - apply flat_levels.
  - done.
Qed.

(** C10. [_flatten] empties the list object it is given: the loop pops its
    entries and appends the replies of what it yields to that same object,
    nothing else in the heap changes, and once the generator is over the
    list is empty, so that flattening the same object again yields nothing. *)
Theorem flatten_consumes_its_input (self : RedditAPI) (queue : loc)
    (link_id : option string) (s : state) :
  (∀ t q extra, deref queue s = t :: q →
      deref queue (snd (fl_step self queue link_id (FLoop extra) s)) = q)
  ∧ (∀ data r extra,
        deref queue (snd (fl_step self queue link_id (FYield data (Some r) extra) s))
        = deref queue s ++ r)
  ∧ (∃ n extra s',
        fl_run self queue link_id n _flatten s = (flat (deref queue s), FLoop extra, s')
        ∧ deref queue s' = []
        ∧ assign queue [] s' = assign queue [] s)
  ∧ (∀ n ys f s',
        fl_run self queue link_id n _flatten s = (ys, f, s') → fl_over f = true →
        deref queue s' = []
        ∧ (∀ m, fl_run self queue link_id m f s' = ([], f, s'))
        ∧ (∀ m, fl_run self queue link_id (S m) _flatten s' = ([], FStop, s'))).
Proof.
  split; [|split; [|split]].
  - intros t q extra Hq. simpl. rewrite Hq.
    destruct t; simpl; by rewrite deref_assign.
  - intros data r extra. simpl. by rewrite deref_assign.
  - destruct (fl_drain_flat self queue link_id s) as (n & s' & Hn & Hd & Ha).
    eexists n, _, s'. eauto.
  - intros n ys f s' Hrun Hover.
    assert (Hd : deref queue s' = []).
    { pose proof (fl_run_drained _ _ _ _ _ _ _ _ _ Hrun I) as Hd.
      by destruct f. }
    split; [done|]. split.
    + intros m. by apply fl_run_over.
    + intros m. by apply fl_run_empty.
Qed.

Lemma flatten_consumes_its_input_witness :
  let t := [TComment (cm "c1") (Some [TComment (cm "c1a") None]); TComment (cm "c2") None] in
  let r := fl_run no_things 1 None 7 _flatten (assign 1 t start) in
  fl_over (snd (fst r)) = true
  ∧ deref 1 (snd r) = []
  ∧ fl_run no_things 1 None 3 _flatten (snd r) = ([], FStop, snd r).
Proof.
  intros t r.
  assert (Hover : fl_over (snd (fst r)) = true) by (vm_compute; reflexivity).
  split; [exact Hover|].
  destruct (flatten_consumes_its_input no_things 1 None (assign 1 t start)) as (_ & _ & _ & H).
  destruct (H 7%nat (fst (fst r)) (snd (fst r)) (snd r)) as (Hd & _ & Hm).
  - subst r. by destruct (fl_run no_things 1 None 7 _flatten (assign 1 t start)) as [[? ?] ?].
  - exact Hover.
  - split; [exact Hd | exact (Hm 2%nat)].
Defined.

Lemma slice_length {A} (l : list A) (i : nat) :
  (length (slice l i (i + 100)) ≤ 100)%nat.
Proof.
  unfold slice. rewrite length_firstn. lia.
Qed.

Lemma assign_log queue l s : log (assign queue l s) = log s.
Proof. done. Qed.


(** *** How many requests [morechildren] makes *)

Lemma mc_run_add self n m g s :
  mc_run self (n + m) g s =
  let '(ys, g', s') := mc_run self n g s in
  let '(zs, g'', s'') := mc_run self m g' s' in
  (ys ++ zs, g'', s'').
Proof.
  revert g s. induction n as [|n IH]; intros g s; simpl.
  - by destruct (mc_run self m g s) as [[zs g''] s''].
  - destruct (mc_step self g s) as [[o g'] s'].
    rewrite IH.
    destruct (mc_run self n g' s') as [[ys g1] s1].
    destruct (mc_run self m g1 s1) as [[zs g2] s2].
    by rewrite app_assoc.
Qed.

(** The [for] loop over things that are all comments yields them and
    leaves [children] as it is. *)
Lemma mc_for_comments self p children index done things s :
  forallb is_comment things = true →
  ∃ ys, mc_run self (S (length things)) (MFor p children index done things) s
        = (ys, MLoop p children index done, s).
Proof.
  revert s. induction things as [|[ids|data replies] things IH]; intros s Hc.
  - by exists [].
  - done.
  - destruct (IH s Hc) as [ys Hys]. exists (data :: ys).
    change (mc_run self (S (length (TComment data replies :: things)))
              (MFor p children index done (TComment data replies :: things)) s)
      with (let '(zs, g, s') := mc_run self (S (length things))
                                  (MFor p children index done things) s in
            (option_list (Some data) ++ zs, g, s')).
    by rewrite Hys.
Qed.

(** Against an API that answers with comments only, [morechildren] makes
    one request for every started block of 100 identifiers, and one more
    when their number is a multiple of 100. *)
Lemma mc_requests self :
  answers_comments self →
  ∀ k p children index s,
    (index ≤ length children)%nat →
    ((length children - index) / 100 = k)%nat →
    ∃ fuel ys s' new,
      mc_run self fuel (MLoop p children index false) s = (ys, MStop, s')
      ∧ gets_to morechildren_url (log s') = gets_to morechildren_url (log s) ++ new
      ∧ length new = S k.
Proof.
  intros Hq. induction k as [|k IH]; intros p children index s Hi Hk.
  - set (p1 := <["children" := PStr (join "," (slice children index (index + 100)))]> p).
    destruct (Hq p1 s) as (things & s1 & Hcall & Hthings & Hlog).
    destruct (mc_for_comments self (raw_json p1) children (index + 100) true things s1 Hthings)
      as [ys Hys].
    exists (1 + (S (length things) + 1))%nat, ys, s1, [raw_json p1].
    split; [|done].
    rewrite mc_run_add. cbn [mc_run mc_step]. fold p1. rewrite Hcall. cbn [things_of].
    assert (Hsmall : (length children - index < 100)%nat).
    { apply (Nat.div_small_iff _ 100); [lia | exact Hk]. }
    assert (Hlt : (Z.of_nat (length children) - Z.of_nat index <? 100) = true).
    { apply Z.ltb_lt. lia. }
    rewrite Hlt. rewrite mc_run_add, Hys. simpl. by rewrite app_nil_r.
  - set (p1 := <["children" := PStr (join "," (slice children index (index + 100)))]> p).
    destruct (Hq p1 s) as (things & s1 & Hcall & Hthings & Hlog).
    destruct (mc_for_comments self (raw_json p1) children (index + 100) false things s1 Hthings)
      as [ys Hys].
    assert (Hge : (100 ≤ length children - index)%nat).
    { destruct (Nat.lt_ge_cases (length children - index) 100) as [Hlt|]; [|done].
      apply (Nat.div_small_iff _ 100) in Hlt; lia. }
    destruct (IH (raw_json p1) children (index + 100)%nat s1 ltac:(lia)) as
      (fuel & zs & s2 & new & Hrun & Hlog2 & Hlen).
    { replace (length children - index)%nat
        with (length children - (index + 100) + 1 * 100)%nat in Hk by lia.
      rewrite Nat.div_add in Hk by lia. lia. }
    exists (1 + (S (length things) + fuel))%nat, (ys ++ zs), s2, (raw_json p1 :: new).
    split; [|split].
    + rewrite mc_run_add. cbn [mc_run mc_step]. fold p1. rewrite Hcall. cbn [things_of].
      assert (Hlt : (Z.of_nat (length children) - Z.of_nat index <? 100) = false).
      { apply Z.ltb_ge. lia. }
      rewrite Hlt. rewrite mc_run_add, Hys, Hrun. done.
    + rewrite Hlog2, Hlog. by rewrite <- app_assoc.
    + simpl. by rewrite Hlen.
Qed.

Lemma morechildren_requests self link_id children s :
  answers_comments self →
  ∃ fuel ys s' new,
    mc_run self fuel (mc_init link_id children) s = (ys, MStop, s')
    ∧ gets_to morechildren_url (log s') = gets_to morechildren_url (log s) ++ new
    ∧ length new = S (length children / 100).
Proof.
  intros Hq. unfold mc_init.
  apply (mc_requests self Hq (length children / 100)); [lia|].
  by rewrite Nat.sub_0_r.
Qed.

Lemma no_things_answers : answers_comments no_things.
Proof.
  intros p s. exists [].
  unfold _call, authenticate, cached_authenticate_impl, bind.
  destruct (cache_get (refresh_token no_things) s) as [v|].
  - eexists. split; [reflexivity|]. split; [done|].
    simpl. unfold gets_to. rewrite flat_map_app. done.
  - eexists. split; [reflexivity|]. split; [done|].
    simpl. unfold gets_to. rewrite !flat_map_app. simpl. by rewrite app_nil_r.
Qed.

(** C1, with the input where the code departs from it.  Without a
    [link_id] a 'more' entry adds nothing and no request is made; every
    request of [morechildren] carries at most 100 identifiers; against the
    server that answers with no things, [n] pending identifiers make
    [n / 100 + 1] requests, which is one for every 100 or part of it unless
    [n] is a multiple of 100; and exactly 100 identifiers make two
    requests, the second one with no identifier at all. *)
Theorem morechildren_request_count :
  (∀ self queue s, ∃ n s',
      fl_run self queue None n _flatten s = (flat (deref queue s), FStop, s')
      ∧ log s' = log s)
  ∧ (∀ (children : list string) index,
        (length (slice children index (index + 100)) ≤ 100)%nat)
  ∧ (∀ link_id children s, ∃ fuel ys s' new,
        mc_run no_things fuel (mc_init link_id children) s = (ys, MStop, s')
        ∧ gets_to morechildren_url (log s') = gets_to morechildren_url (log s) ++ new
        ∧ length new = S (length children / 100))
  ∧ (let ids := child_ids 100 in
     let r := fl_run no_things 1 (Some "t3_8cqhub") 9 _flatten
                (assign 1 [TMore ids] start) in
     length ids = 100%nat
     ∧ snd (fst r) = FStop
     ∧ map children_of (gets_to morechildren_url (log (snd r)))
       = [Some (PStr (join "," ids)); Some (PStr EmptyString)]).
Proof.
  split; [|split; [|split]].
  - intros self queue s.
    destruct (fl_drain_flat self queue None s) as (n & s' & Hn & Hd & Ha).
    exists (n + 1)%nat, s'. rewrite fl_run_add, Hn. simpl. rewrite Hd.
    split; [by rewrite app_nil_r|].
    by rewrite <- (assign_log queue [] s'), Ha.
  - intros children index. apply slice_length.
  - intros link_id children s. apply morechildren_requests, no_things_answers.
  - vm_compute. done.
Qed.

(** ** Claims on [authenticate] and [_call] *)

Lemma cached_miss self k s :
  cache_get k s = None →
  cached_authenticate_impl self k s =
  match token_server self (log s) (client_id self) (grant_for k) with
  | Ok response =>
      match token_of response with
      | Ok value =>
          (Ok value,
           set_token_cache (<[k := (value, now s + maxage)]> (token_cache s))
             (add_event (EToken (client_id self) (grant_for k)) s))
      | Raise e => (Raise e, add_event (EToken (client_id self) (grant_for k)) s)
      end
  | Raise e => (Raise e, add_event (EToken (client_id self) (grant_for k)) s)
  end.
Proof.
  intros Hc. unfold cached_authenticate_impl. rewrite Hc.
  unfold _authenticate_impl, bind, lift, gets, modify. simpl.
  destruct (token_server self (log s) (client_id self) (grant_for k)) as [response|e]; [|done].
  by destruct (token_of response).
Qed.

Lemma cached_miss_log self k s :
  cache_get k s = None →
  log (snd (cached_authenticate_impl self k s))
  = log s ++ [EToken (client_id self) (grant_for k)].
Proof.
  intros Hc. rewrite (cached_miss _ _ _ Hc).
  destruct (token_server self (log s) (client_id self) (grant_for k)) as [response|e]; [|done].
  by destruct (token_of response).
Qed.

Lemma authenticate_miss_log self s :
  cache_get (refresh_token self) s = None →
  log (snd (authenticate self s))
  = log s ++ [EToken (client_id self) (grant_for (refresh_token self))].
Proof.
  intros Hc. pose proof (cached_miss_log self _ s Hc) as Hl.
  unfold authenticate, bind, modify.
  by destruct (cached_authenticate_impl self (refresh_token self) s) as [[v|e] s1].
Qed.

(** C5. After a token exchange that the server grants, every
    [authenticate()] with the same refresh credential less than 3600 time
    units later returns the cached ['Bearer ' + token] without any request;
    from 3600 time units on, the next call makes exactly one token request
    again.  [None], no refresh credential, is a key like any other. *)
Theorem token_exchanged_once_per_window (self : RedditAPI) (s : state)
    (tok : string) (e m : option jval) :
  let k := refresh_token self in
  let bearer := "Bearer " +:+ tok in
  let s1 := snd (authenticate self s) in
  cache_get k s = None →
  token_server self (log s) (client_id self) (grant_for k)
  = Ok (TokenResponse 200 (Some (TokenJson e m (Some tok)))) →
  fst (authenticate self s) = Ok tt
  ∧ authorization s1 = Some bearer
  ∧ log s1 = log s ++ [EToken (client_id self) (grant_for k)]
  ∧ (∀ s2, token_cache s2 !! k = token_cache s1 !! k → now s2 < now s + 3600 →
        cached_authenticate_impl self k s2 = (Ok bearer, s2)
        ∧ authenticate self s2 = (Ok tt, set_authorization (Some bearer) s2)
        ∧ log (snd (authenticate self s2)) = log s2)
  ∧ (∀ s3, token_cache s3 !! k = token_cache s1 !! k → now s + 3600 ≤ now s3 →
        log (snd (authenticate self s3))
        = log s3 ++ [EToken (client_id self) (grant_for k)]).
Proof.
  intros k bearer s1 Hmiss Hsrv.
  assert (Hauth : authenticate self s =
            (Ok tt, set_authorization (Some bearer)
                      (set_token_cache (<[k := (bearer, now s + maxage)]> (token_cache s))
                         (add_event (EToken (client_id self) (grant_for k)) s)))).
  { unfold authenticate, bind, modify. fold k. rewrite (cached_miss _ _ _ Hmiss), Hsrv. done. }
  assert (Hk : token_cache s1 !! k = Some (bearer, now s + 3600)).
  { unfold s1. rewrite Hauth. simpl. by rewrite lookup_insert_eq. }
  split; [by rewrite Hauth|]. split; [by unfold s1; rewrite Hauth|].
  split; [by unfold s1; rewrite Hauth|]. split.
  - intros s2 Hc Ht.
    assert (Hhit : cache_get k s2 = Some bearer).
    { unfold cache_get. rewrite Hc, Hk.
      destruct (Z.ltb_spec (now s2) (now s + 3600)); [done|lia]. }
    assert (Hci : cached_authenticate_impl self k s2 = (Ok bearer, s2)).
    { unfold cached_authenticate_impl. by rewrite Hhit. }
    split; [done|].
    assert (Ha : authenticate self s2 = (Ok tt, set_authorization (Some bearer) s2)).
    { unfold authenticate, bind, modify. fold k. by rewrite Hci. }
    split; [done|]. by rewrite Ha.
  - intros s3 Hc Ht. apply authenticate_miss_log. fold k.
    unfold cache_get. rewrite Hc, Hk.
    destruct (Z.ltb_spec (now s3) (now s + 3600)); [lia|done].
Qed.

Lemma token_exchanged_once_per_window_witness :
  let s1 := snd (authenticate no_things start) in
  fst (authenticate no_things start) = Ok tt
  ∧ authorization s1 = Some "Bearer abc123"
  ∧ exchanges (log s1) = 1%nat
  ∧ exchanges (log (snd (authenticate no_things (set_now 3599 s1)))) = 1%nat
  ∧ exchanges (log (snd (authenticate no_things (set_now 3600 s1)))) = 2%nat.
Proof.
  intros s1.
  destruct (token_exchanged_once_per_window no_things start "abc123" None None)
    as (H1 & H2 & H3 & H4 & H5); [reflexivity | reflexivity |].
  split; [exact H1|]. split; [exact H2|]. split.
  - fold s1 in H3. rewrite H3. reflexivity.
  - split.
    + destruct (H4 (set_now 3599 s1)) as (_ & _ & Hl); [reflexivity | vm_compute; reflexivity |].
      rewrite Hl. fold s1 in H3. simpl. rewrite H3. reflexivity.
    + rewrite (H5 (set_now 3600 s1)); [|reflexivity | vm_compute; discriminate].
      fold s1 in H3. simpl. rewrite H3. reflexivity.
Defined.










(** ** Claims on [_pagination] *)





Lemma pg_step_bounds self endpoint g s o g' s' :
  config_id_min self = None → config_id_max self = None →
  pg_step self endpoint g s = (o, g', s') →
  default_bounds g → default_bounds g'.
Proof.
  intros Hmin Hmax Hstep Hg.
  destruct g as [p|a b p|a b p [|c cs] after| |e]; unfold pg_step in Hstep.
  - rewrite Hmin, Hmax in Hstep. simpl in Hstep. by simplify_eq.
  - destruct (_call self endpoint p s) as [[body|e] s1];
      repeat case_match; simplify_eq; simpl in *; done.
  - repeat case_match; simplify_eq; simpl in *; done.
  - repeat case_match; simplify_eq; simpl in *; done.
  - by simplify_eq.
  - by simplify_eq.
Qed.

Lemma pg_run_bounds self endpoint n : ∀ g s tr g' s',
  config_id_min self = None → config_id_max self = None →
  pg_run self endpoint n g s = (tr, g', s') →
  default_bounds g → default_bounds g'.
Proof.
  induction n as [|n IH]; simpl; intros g s tr g' s' Hmin Hmax Hrun Hg.
  - by simplify_eq.
  - destruct (pg_step self endpoint g s) as [[o g1] s1] eqn:Hs.
    destruct (pg_run self endpoint n g1 s1) as [[tr1 g2] s2] eqn:Hr.
    simplify_eq. eapply IH; [done | done | done |]. by eapply pg_step_bounds.
Qed.

(** C9. Without [id-min] and [id-max] the generator still filters by the
    bounds 0 and 2147483647, all along: an item whose identifier decodes to
    more than 2147483647 is passed over, with nothing yielded, no request
    and no exception. *)
Theorem pagination_default_id_bounds (self : RedditAPI) (endpoint : string) :
  config_id_min self = None → config_id_max self = None →
  (∀ p s, pg_step self endpoint (PStart p) s = (PQuiet, PLoop 0 2147483647 p, s))
  ∧ (∀ n p s, default_bounds (snd (fst (pg_run self endpoint n (PStart p) s))))
  ∧ (∀ c n, _decode (child_id c) = Ok n → 2147483647 < n →
        ∀ p children after s,
          in_range self 0 2147483647 c = Ok false
          ∧ pg_step self endpoint (PFor 0 2147483647 p (c :: children) after) s
            = (PQuiet, PFor 0 2147483647 p children after, s)).
Proof.
  intros Hmin Hmax. split; [|split].
  - intros p s. simpl. by rewrite Hmin, Hmax.
  - intros n p s.
    destruct (pg_run self endpoint n (PStart p) s) as [[tr g] s'] eqn:Hr.
    simpl. by eapply pg_run_bounds.
  - intros c n Hdec Hn p children after s.
    assert (Hr : in_range self 0 2147483647 c = Ok false).
    { unfold in_range. rewrite Hdec.
      destruct (_ && _); [|done].
      destruct (Z.leb_spec n 2147483647); [lia|]. by rewrite andb_false_r. }
    split; [done|]. simpl. by rewrite Hr.
Qed.

Lemma pagination_default_id_bounds_witness :
  _decode "zzzzzz" = Ok 2176782335
  ∧ ∀ p s, pg_run two_pages "/r/lavaporn/.json" 2
             (PFor 0 2147483647 p [T3 (a_post "zzzzzz")] None) s
           = ([], PStop, s).
Proof.
  split; [reflexivity|]. intros p s.
  destruct (pagination_default_id_bounds two_pages "/r/lavaporn/.json" eq_refl eq_refl)
    as (_ & _ & H).
  destruct (H (T3 (a_post "zzzzzz")) 2176782335 eq_refl ltac:(lia) p [] None s) as [_ Hs].
  change (pg_run two_pages "/r/lavaporn/.json" 2
            (PFor 0 2147483647 p [T3 (a_post "zzzzzz")] None) s)
    with (let '(o, g', s') := pg_step two_pages "/r/lavaporn/.json"
                                (PFor 0 2147483647 p [T3 (a_post "zzzzzz")] None) s in
          let '(tr, g'', s'') := pg_run two_pages "/r/lavaporn/.json" 1 g' s' in
          (pg_trace o ++ tr, g'', s'')).
  rewrite Hs. reflexivity.
Defined.

(** ** Claims on [items] *)

Lemma seen_app V l1 l2 : seen V (l1 ++ l2) = seen (seen V l1) l2.
Proof. revert V. induction l1 as [|[]]; intros V; simpl; auto. Qed.


Lemma seen_visits V l : seen V l = V ∪ list_to_set (visits l).
Proof.
  revert V. induction l as [|a l IH]; intros V; simpl.
  - set_solver.
  - destruct a; simpl; rewrite IH; set_solver.
Qed.


Lemma fetched_app l1 l2 : fetched (l1 ++ l2) = fetched l1 ++ fetched l2.
Proof. unfold fetched. by rewrite flat_map_app. Qed.




Lemma scan_quiet {W} (self : RedditExtractor W) l : ∀ extra acts extra' e,
  scan self l extra = (acts, extra', e) → fetched acts = [] ∧ visits acts = [].
Proof.
  induction l as [|[u data] l IH]; simpl; intros extra acts extra' e H.
  - by simplify_eq.
  - destruct (classify self u data) as [[| sid | u' data']|x].
    + by eapply IH.
    + by eapply IH.
    + destruct (scan self l extra) as [[acts1 extra1] e1] eqn:Hs.
      simplify_eq. simpl. by eapply IH.
    + by simplify_eq.
Qed.

(** One pair: no fetch, the post goes to the set, the world is untouched. *)
Lemma do_pair_spec {W} (self : RedditExtractor W) p extra c acts extra' e c' :
  do_pair self p extra c = (acts, extra', e, c') →
  fetched acts = []
  ∧ visited c' = seen (visited c) acts
  ∧ (∀ sub, fst p = Some sub → id sub ∈ visited c').
Proof.
  unfold do_pair. intros H.
  destruct (snd p) as [cs|];
    destruct (fst p) as [sub|];
    match type of H with
    | context [scan self ?l ?x] =>
        destruct (scan self l x) as [[acts1 extra1] e1] eqn:Hs
    end;
    apply scan_quiet in Hs as [Hf Hv]; simplify_eq; simpl;
    rewrite ?seen_visits, ?Hv, ?Hf; (split; [done|]); split;
    try set_solver.
Qed.

Lemma do_pairs_spec {W} (self : RedditExtractor W) ps fin : ∀ extra c acts extra' e c',
  do_pairs self ps fin extra c = (acts, extra', e, c') →
  fetched acts = [] ∧ visited c' = seen (visited c) acts.
Proof.
  induction ps as [|p ps IH]; simpl; intros extra c acts extra' e c' H.
  - by simplify_eq.
  - destruct (do_pair self p extra c) as [[[acts1 extra1] [e1|]] c1] eqn:Hp;
      apply do_pair_spec in Hp as (Hf & Hv & _).
    + by simplify_eq.
    + destruct (do_pairs self ps fin extra1 c1) as [[[acts2 extra2] e2] c2] eqn:Hps.
      apply IH in Hps as [Hf2 Hv2]. simplify_eq.
      rewrite fetched_app, Hf, Hf2, seen_app, <- Hv. done.
Qed.











Lemma quiet_app V a b :
  fetched a = [] → visits a = [] → fetched b = [] → visits b = [] →
  fetched (a ++ b) = [] ∧ seen V (a ++ b) = V.
Proof.
  intros Ha Hva Hb Hvb.
  rewrite fetched_app, Ha, Hb, seen_visits. unfold visits in *.
  rewrite flat_map_app, Hva, Hvb. split; [done | set_solver].
Qed.








(** At depth [max_depth] the loop ends with the round, whatever it found. *)
Lemma items_loop_at_max {W} (self : RedditExtractor W) fuel src c :
  items_loop self (S fuel) (max_depth self) src c = stop_after (round self src c).
Proof.
  simpl. destruct (round self src c) as [[[acts extra] [e|]] c']; simpl; [done|].
  by rewrite Z.eqb_refl, orb_true_r.
Qed.

Lemma items_loop_step {W} (self : RedditExtractor W) fuel depth src c :
  items_loop self (S fuel) depth src c =
  match round self src c with
  | (acts, _, Some e, c') => (acts, Raised e, c')
  | (acts, extra, None, c') =>
      if is_nil extra || (depth =? max_depth self)
      then (acts, Returned, c')
      else
        let '(acts', st, c'') := items_loop self fuel (depth + 1) (Expand extra) c' in
        (acts ++ acts', st, c'')
  end.
Proof. done. Qed.

(** With a depth counter at most [max_depth], that many rounds more, and
    one, are enough. *)
Lemma items_loop_returns {W} (self : RedditExtractor W) fuel :
  ∀ depth src c,
    0 ≤ depth ≤ max_depth self →
    (Z.to_nat (max_depth self - depth) < fuel)%nat →
    status_of (items_loop self fuel depth src c) ≠ Running.
Proof.
  induction fuel as [|fuel IH]; intros depth src c Hd Hf; [lia|].
  simpl. destruct (round self src c) as [[[acts extra] [e|]] c']; [done|].
  destruct (is_nil extra); simpl; [done|].
  destruct (Z.eqb_spec depth (max_depth self)) as [He|Hne]; [done|].
  specialize (IH (depth + 1) (Expand extra) c' ltac:(lia) ltac:(lia)).
  by destruct (items_loop self fuel (depth + 1) (Expand extra) c') as [[acts2 st2] c2].
Qed.

(** Once the loop has ended, more fuel changes nothing. *)
Lemma items_loop_stable {W} (self : RedditExtractor W) fuel :
  ∀ depth src c,
    status_of (items_loop self fuel depth src c) ≠ Running →
    items_loop self (S fuel) depth src c = items_loop self fuel depth src c.
Proof.
  induction fuel as [|fuel IH]; intros depth src c Hs; [done|].
  rewrite (items_loop_step self (S fuel)). rewrite (items_loop_step self fuel) in Hs |- *.
  destruct (round self src c) as [[[acts extra] [e|]] c']; [done|].
  destruct (is_nil extra || (depth =? max_depth self)); [done|].
  rewrite IH; [done|].
  by destruct (items_loop self fuel (depth + 1) (Expand extra) c') as [[acts2 st2] c2].
Qed.

Lemma items_loop_enough {W} (self : RedditExtractor W) fuel depth src c more :
  status_of (items_loop self fuel depth src c) ≠ Running →
  items_loop self (fuel + more) depth src c = items_loop self fuel depth src c.
Proof.
  intros Hs. induction more as [|more IH]; [by rewrite Nat.add_0_r|].
  rewrite Nat.add_succ_r, items_loop_stable; [done|]. by rewrite IH.
Qed.

Lemma do_expand_one {W} (self : RedditExtractor W) sid c :
  sid ∉ visited c →
  fetched (fst (fst (fst (do_expand self [sid] [] c)))) = [sid].
Proof.
  intros Hn. simpl. destruct (decide (sid ∈ visited c)); [done|].
  destruct (api_submission self sid (world c)) as [[p|x] w]; [|done].
  destruct (do_pair self p [] (Crawl (visited c) w)) as [[[acts1 extra1] [e1|]] c1] eqn:Hp;
    apply do_pair_spec in Hp as (Hf & _ & _); simpl.
  - by rewrite Hf.
  - by rewrite fetched_app, Hf.
Qed.

(** C3, amended.  The loop ends with the round in which the depth counter
    equals [max_depth]; with a [max_depth] that is not negative it
    returns, or raises, within [max_depth + 1] rounds, and more rounds
    allowed change nothing; with [max_depth] 1
    and a first round that finds one post to expand, that post is fetched
    and nothing else is, whatever it links to. *)
Theorem recursion_depth_bounds_crawl {W} (self : RedditExtractor W) :
  (∀ fuel src c,
      items_loop self (S fuel) (max_depth self) src c = stop_after (round self src c))
  ∧ (0 ≤ max_depth self →
     ∀ submissions c,
       status_of (items self (S (Z.to_nat (max_depth self))) submissions c) ≠ Running
       ∧ ∀ more, items self (S (Z.to_nat (max_depth self)) + more) submissions c
                 = items self (S (Z.to_nat (max_depth self))) submissions c)
  ∧ (max_depth self = 1 →
     ∀ fuel submissions c acts sid c1,
       round self (Given submissions) c = (acts, [sid], None, c1) →
       sid ∉ visited c1 →
       let r := items self (S (S fuel)) submissions c in
       fetched (actions_of r) = [sid] ∧ status_of r ≠ Running).
Proof.
  split; [|split].
  - intros fuel src c. apply items_loop_at_max.
  - intros Hd submissions c.
    pose proof (items_loop_returns self (S (Z.to_nat (max_depth self))) 0
                  (Given submissions) c ltac:(lia) ltac:(lia)) as H.
    split.
    + unfold items, status_of in *.
      by destruct (items_loop self _ 0 (Given submissions) c) as [[acts st] c'].
    + intros more. unfold items. by rewrite items_loop_enough.
  - intros Hd fuel submissions c acts sid c1 Hr Hn r.
    assert (Hf0 : fetched acts = []).
    { simpl in Hr. by apply do_pairs_spec in Hr as [Hf _]. }
    subst r. unfold items, actions_of, status_of.
    rewrite items_loop_step, Hr.
    assert (Hb : is_nil [sid] || (0 =? max_depth self) = false) by (by rewrite Hd).
    rewrite Hb. replace (0 + 1) with (max_depth self) by lia.
    rewrite items_loop_at_max.
    pose proof (do_expand_one self sid c1 Hn) as H1.
    unfold round, stop_after.
    destruct (do_expand self [sid] [] c1) as [[[acts2 extra2] e2] c2]. simpl in H1.
    simpl. rewrite fetched_app, Hf0, H1. split; [done|]. by destruct e2.
Qed.

Lemma recursion_depth_bounds_crawl_witness :
  let r := items (chain 1) 2 chain_start fresh_crawl in
  fetched (actions_of r) = ["aa"] ∧ status_of r = Returned.
Proof.
  intros r.
  destruct (recursion_depth_bounds_crawl (chain 1)) as (_ & _ & H).
  destruct (H eq_refl 0%nat chain_start fresh_crawl
              (fst (fst (fst (round (chain 1) (Given chain_start) fresh_crawl))))
              "aa"
              (snd (round (chain 1) (Given chain_start) fresh_crawl)))
    as [Hf _].
  - vm_compute. reflexivity.
  - vm_compute. discriminate.
  - split; [exact Hf | vm_compute; reflexivity].
Defined.

(** *** The endless chain *)

Lemma split_first_cons pat c s :
  split_first pat (String c s) =
  if starts_with pat (String c s)
  then Some (EmptyString, drop_string (String.length pat) (String c s))
  else match split_first pat s with
       | Some (before, after) => Some (String c before, after)
       | None => None
       end.
Proof. done. Qed.

Lemma split_first_dq u rest :
  no_dq u = true → split_first dq (u +:+ dq +:+ rest) = Some (u, rest).
Proof.
  unfold no_dq. induction u as [|c u IH]; intros H.
  - done.
  - apply andb_prop in H as [Hc Hu].
    change (String c u +:+ dq +:+ rest) with (String c (u +:+ dq +:+ rest)).
    rewrite split_first_cons, (IH Hu).
    change (starts_with dq (String c (u +:+ dq +:+ rest))) with (Ascii.eqb "034" c && true).
    rewrite Ascii.eqb_sym. by destruct (Ascii.eqb c "034").
Qed.

Lemma extract_iter_step fuel txt begin end_ before rest value rest' :
  split_first begin txt = Some (before, rest) →
  split_first end_ rest = Some (value, rest') →
  extract_iter_from (S fuel) txt begin end_
  = value :: extract_iter_from fuel rest' begin end_.
Proof. intros H1 H2. simpl. by rewrite H1, H2. Qed.

Lemma href_targets_anchor u :
  no_dq u = true → href_targets (anchor u) = [u].
Proof.
  intros Hu. unfold href_targets, text_extract_iter.
  rewrite (extract_iter_step _ _ _ _ "<a" (u +:+ dq +:+ ">next</a>") u ">next</a>");
    [|reflexivity|by apply split_first_dq].
  by destruct (String.length (anchor u)).
Qed.

Lemma span_chain k : span is_id_char (chain_id k) = (chain_id k, EmptyString).
Proof. induction k as [|k IH]; [done|]. simpl in *. by rewrite IH. Qed.

Lemma chain_id_not_empty k : String.eqb (chain_id k) EmptyString = false.
Proof. by destruct k. Qed.

Lemma pattern_match_chain k :
  submission_pattern_match ("https://redd.it/" +:+ chain_id k) = Some (chain_id k).
Proof.
  unfold submission_pattern_match.
  change (strip_prefix "https://" ("https://redd.it/" +:+ chain_id k))
    with (Some ("redd.it/" +:+ chain_id k)).
  unfold match_host.
  change (match_long ("redd.it/" +:+ chain_id k)) with (@None string).
  change (match_short ("redd.it/" +:+ chain_id k)) with (match_id ("/" +:+ chain_id k)).
  unfold match_id.
  change (strip_prefix "/" ("/" +:+ chain_id k)) with (Some (chain_id k)).
  simpl. by rewrite span_chain, chain_id_not_empty.
Qed.

Lemma no_dq_chain k : no_dq ("https://redd.it/" +:+ chain_id k) = true.
Proof.
  unfold no_dq.
  change (list_ascii_of_string ("https://redd.it/" +:+ chain_id k))
    with (list_ascii_of_string "https://redd.it/" ++ list_ascii_of_string (chain_id k)).
  rewrite forallb_app. rewrite andb_true_iff. split; [done|].
  induction k as [|k IH]; [done|]. simpl. exact IH.
Qed.

Lemma chain_post_urls d k :
  post_urls (chain d) (chain_post (chain_id k))
  = [("https://example.org/a.jpg", OfPost (chain_post (chain_id k)));
     ("https://redd.it/" +:+ chain_id (S k), OfPost (chain_post (chain_id k)))].
Proof.
  unfold post_urls. simpl is_self. simpl negb. cbv iota.
  change (extract_iter (chain d) (or_empty (selftext_html (chain_post (chain_id k)))))
    with (href_targets (anchor ("https://redd.it/" +:+ chain_id (S k)))).
  by rewrite href_targets_anchor by apply no_dq_chain.
Qed.

Lemma chain_classify d k data :
  classify (chain d) ("https://redd.it/" +:+ chain_id k) data = Ok (Extra (chain_id k)).
Proof.
  change (classify (chain d) ("https://redd.it/" +:+ chain_id k) data)
    with (match submission_pattern_match ("https://redd.it/" +:+ chain_id k) with
          | Some sid => Ok (Extra sid)
          | None => Ok (Emit ("https://redd.it/" +:+ chain_id k) data)
          end).
  by rewrite pattern_match_chain.
Qed.

Lemma chain_round d k c :
  chain_id k ∉ visited c →
  round (chain d) (Expand [chain_id k]) c
  = ([Fetch (chain_id k); Visit (chain_id k);
      Queue "https://example.org/a.jpg" (OfPost (chain_post (chain_id k)))],
     [chain_id (S k)], None, Crawl ({[ chain_id k ]} ∪ visited c) tt).
Proof.
  intros Hn. unfold round. cbn [do_expand].
  destruct (decide (chain_id k ∈ visited c)) as [|_]; [done|].
  change (api_submission (chain d) (chain_id k) (world c))
    with (Ok (Some (chain_post (chain_id k)), @None (lazy comment)), world c).
  cbv iota. unfold do_pair. cbn [fst snd visited world].
  rewrite chain_post_urls. cbn [app scan].
  rewrite chain_classify.
  change (classify (chain d) "https://example.org/a.jpg" (OfPost (chain_post (chain_id k))))
    with (Ok (Emit "https://example.org/a.jpg" (OfPost (chain_post (chain_id k))))).
  cbn. by destruct (world c).
Qed.

Lemma chain_id_length k : String.length (chain_id k) = S k.
Proof. induction k as [|k IH]; [done|]. simpl. by rewrite IH. Qed.

Lemma chain_loop d fuel :
  d < 0 →
  ∀ depth k c,
    0 ≤ depth →
    (∀ x, x ∈ visited c → (String.length x ≤ k)%nat) →
    let r := items_loop (chain d) fuel depth (Expand [chain_id k]) c in
    status_of r = Running ∧ length (messages (actions_of r)) = fuel.
Proof.
  intros Hd. induction fuel as [|fuel IH]; intros depth k c Hdepth Hv r; [done|].
  subst r. rewrite items_loop_step, chain_round.
  - destruct (Z.eqb_spec depth (max_depth (chain d))) as [He|_];
      [simpl in He; lia|].
    cbn [is_nil orb].
    specialize (IH (depth + 1) (S k) (Crawl ({[ chain_id k ]} ∪ visited c) tt)
                  ltac:(lia)).
    destruct (items_loop (chain d) fuel (depth + 1) (Expand [chain_id (S k)]) _)
      as [[acts st] c'].
    destruct IH as [Hs Hl].
    + intros x Hx. simpl in Hx. apply elem_of_union in Hx as [Hx|Hx].
      * apply elem_of_singleton in Hx as ->. rewrite chain_id_length. lia.
      * specialize (Hv x Hx). lia.
    + unfold status_of, actions_of in *. simpl in *. split; [done|]. by rewrite Hl.
  - intros Hin. specialize (Hv _ Hin). rewrite chain_id_length in Hv. lia.
Qed.

Lemma chain_first_round d :
  round (chain d) (Given chain_start) fresh_crawl
  = ([Visit "a"; Queue "https://example.org/a.jpg" (OfPost (chain_post "a"))],
     ["aa"], None, Crawl ({[ "a" ]} ∪ ∅) tt).
Proof. reflexivity. Qed.

(** C3, as stated, fails for a negative [recursion]: the depth counter
    never equals it, and over a chain of posts that each link to a new one
    the crawl goes on for ever, one post a round and one message a round. *)
Lemma negative_recursion_never_returns :
  (¬ ∃ fuel, status_of (items (chain (-1)) fuel chain_start fresh_crawl) ≠ Running)
  ∧ (∀ n, length (messages (actions_of (items (chain (-1)) n chain_start fresh_crawl))) = n).
Proof.
  assert (H : ∀ n, let r := items (chain (-1)) n chain_start fresh_crawl in
                   status_of r = Running ∧ length (messages (actions_of r)) = n).
  { intros [|n]; [done|]. unfold items.
    rewrite items_loop_step, chain_first_round. cbn [is_nil orb].
    change (0 =? max_depth (chain (-1))) with false. cbv iota.
    pose proof (chain_loop (-1) n ltac:(lia) (0 + 1) 1%nat
                  (Crawl ({[ "a" ]} ∪ ∅) tt) ltac:(lia)) as Hl.
    change (chain_id 1) with "aa" in Hl.
    destruct (items_loop (chain (-1)) n (0 + 1) (Expand ["aa"]) _) as [[acts st] c'].
    destruct Hl as [Hs Hl].
    - intros x Hx. simpl in Hx. apply elem_of_union in Hx as [Hx|Hx]; [|set_solver].
      by apply elem_of_singleton in Hx as ->.
    - unfold status_of, actions_of in *. simpl in *. split; [done|]. by rewrite Hl. }
  split.
  - intros [fuel Hf]. by destruct (H fuel).
  - intros n. by destruct (H n).
Qed.

(** * Further properties *)

(** ** [_flatten] over the whole tree *)

Lemma comments_of_replies data r :
  comments_of (TComment data (Some r)) = data :: all_comments r.
Proof. reflexivity. Qed.

Lemma stubs_of_replies data r : stubs_of (TComment data (Some r)) = all_stubs r.
Proof. reflexivity. Qed.

Lemma all_comments_app q r : all_comments (q ++ r) = all_comments q ++ all_comments r.
Proof. unfold all_comments. by rewrite flat_map_app. Qed.

Lemma all_stubs_app q r : all_stubs (q ++ r) = all_stubs q ++ all_stubs r.
Proof. unfold all_stubs. by rewrite flat_map_app. Qed.

Lemma queue_order_all k : ∀ q, (weights q ≤ k)%nat → queue_order k q ≡ₚ all_comments q.
Proof.
  induction k as [|k IH]; intros q Hk.
  - destruct q as [|[ids|data replies] q]; simpl in Hk; [done|lia|lia].
  - destruct q as [|[ids|data replies] q]; [done| |].
    + simpl in *. apply IH. lia.
    + rewrite weights_replies in Hk. simpl queue_order.
      rewrite IH by lia. rewrite all_comments_app.
      change (all_comments (TComment data replies :: q))
        with (comments_of (TComment data replies) ++ all_comments q).
      destruct replies as [r|]; simpl default.
      * rewrite comments_of_replies. simpl. constructor. apply Permutation_app_comm.
      * simpl. by rewrite app_nil_r.
Qed.

Lemma queue_extra_all k : ∀ q, (weights q ≤ k)%nat → queue_extra k q ≡ₚ all_stubs q.
Proof.
  induction k as [|k IH]; intros q Hk.
  - destruct q as [|[ids|data replies] q]; simpl in Hk; [done|lia|lia].
  - destruct q as [|[ids|data replies] q]; [done| |].
    + simpl in *. apply Permutation_app_head. apply IH. lia.
    + rewrite weights_replies in Hk. simpl queue_extra.
      rewrite IH by lia. rewrite all_stubs_app.
      change (all_stubs (TComment data replies :: q))
        with (stubs_of (TComment data replies) ++ all_stubs q).
      destruct replies as [r|]; simpl default.
      * rewrite stubs_of_replies. apply Permutation_app_comm.
      * simpl. by rewrite app_nil_r.
Qed.

(** X1. Without a [link_id], [_flatten] yields every comment of the tree,
    at whatever depth, exactly once: its output is a rearrangement of the
    comments of the tree, and nothing else. *)
Theorem flatten_yields_every_comment (self : RedditAPI) (queue : loc) (s : state) :
  ∃ n s',
    fl_run self queue None n _flatten s = (flat (deref queue s), FStop, s')
    ∧ flat (deref queue s) ≡ₚ all_comments (deref queue s)
    ∧ length (flat (deref queue s)) = length (all_comments (deref queue s)).
Proof.
  destruct (fl_drain_flat self queue None s) as (n & s' & Hn & Hd & _).
  assert (Hp : flat (deref queue s) ≡ₚ all_comments (deref queue s))
    by (by apply queue_order_all).
  exists (n + 1)%nat, s'. rewrite fl_run_add, Hn. simpl. rewrite Hd.
  split; [by rewrite app_nil_r|]. split; [done | by rewrite Hp].
Qed.

Lemma mc_run_over self n m s : mc_over m = true → mc_run self n m s = ([], m, s).
Proof.
  intros Hm. induction n as [|n IH]; [done|].
  destruct m; try done; simpl in *; by rewrite IH.
Qed.

(** While [_flatten] delegates, it does what [morechildren] does. *)
Lemma fl_run_delegate self queue link_id n : ∀ m s,
  fl_run self queue link_id n (delegate m) s =
  let '(ys, m', s') := mc_run self n m s in (ys, delegate m', s').
Proof.
  induction n as [|n IH]; intros m s; [done|].
  destruct (mc_over m) eqn:Hover.
  - rewrite mc_run_over by done. destruct m; try done; by rewrite fl_run_over.
  - assert (Hd : delegate m = FMore m) by (by destruct m).
    rewrite Hd. cbn [fl_run fl_step mc_run].
    destruct (mc_step self m s) as [[o m1] s1].
    assert (Hw : (match m1 with
                  | MStop => (o, FStop, s1)
                  | MRaised e => (o, FRaised e, s1)
                  | _ => (o, FMore m1, s1)
                  end) = (o, delegate m1, s1)) by (by destruct m1).
    rewrite Hw, IH. by destruct (mc_run self n m1 s1) as [[ys m2] s2].
Qed.

(** X2. With a [link_id], [_flatten] first yields the comments of the
    tree in queue order without any request, collecting the identifiers of
    every entry of kind more in the tree; if there is none it stops there,
    otherwise what follows is what [morechildren] yields for those
    identifiers, and it ends as [morechildren] ends. *)
Theorem flatten_then_morechildren (self : RedditAPI) (queue : loc) (l : string)
    (s : state) :
  l ≠ EmptyString →
  let q := deref queue s in
  let extra := queue_extra (weights q) q in
  extra ≡ₚ all_stubs q
  ∧ ∃ n s1,
      log s1 = log s ∧ deref queue s1 = []
      ∧ (extra = [] → fl_run self queue (Some l) (n + 1) _flatten s = (flat q, FStop, s1))
      ∧ (extra ≠ [] →
         ∀ k, fl_run self queue (Some l) (n + 1 + k) _flatten s =
              let '(ys, m, s2) := mc_run self k (mc_init l extra) s1 in
              (flat q ++ ys, delegate m, s2)).
Proof.
  intros Hl q extra. split; [by apply queue_extra_all|].
  destruct (fl_drain_flat self queue (Some l) s) as (n & s1 & Hn & Hd & Ha).
  assert (Ht : truthy (Some l) = true).
  { simpl. by destruct (String.eqb_spec l EmptyString). }
  unfold more_ids in Hn. rewrite Ht in Hn. fold q in Hn. fold extra in Hn.
  exists n, s1. split; [by rewrite <- (assign_log queue [] s1), Ha|]. split; [done|].
  split.
  - intros He. rewrite fl_run_add, Hn. cbn [fl_run fl_step].
    rewrite Hd, Ht, He. simpl. by rewrite app_nil_r.
  - intros He k. rewrite <- Nat.add_assoc, fl_run_add, Hn.
    change (fl_run self queue (Some l) (1 + k) (FLoop extra) s1)
      with (let '(o, f', s') := fl_step self queue (Some l) (FLoop extra) s1 in
            let '(ys, f'', s'') := fl_run self queue (Some l) k f' s' in
            (option_list o ++ ys, f'', s'')).
    cbn [fl_step]. rewrite Hd, Ht.
    assert (Hnil : is_nil extra = false) by (by destruct extra).
    rewrite Hnil. simpl negb. simpl andb. cbv iota.
    change (FMore (mc_init l extra)) with (delegate (mc_init l extra)).
    rewrite fl_run_delegate.
    by destruct (mc_run self k (mc_init l extra) s1) as [[ys m] s2].
Qed.

Lemma flatten_then_morechildren_witness :
  let q := [TComment (cm "c1") (Some [TMore ["c1a"; "c1b"]]); TMore ["c3"]] in
  queue_extra (weights q) q ≡ₚ all_stubs q.
Proof.
  intros q.
  exact (proj1 (flatten_then_morechildren no_things 1 "t3_8cqhub" (assign 1 q start)
                  ltac:(discriminate))).
Defined.

(** ** What [_call] does to the world *)

Lemma requests_app l1 l2 : requests (l1 ++ l2) = requests l1 ++ requests l2.
Proof. unfold requests. by rewrite flat_map_app. Qed.

Lemma exchanges_app l1 l2 : exchanges (l1 ++ l2) = (exchanges l1 + exchanges l2)%nat.
Proof. unfold exchanges. by rewrite List.filter_app, length_app. Qed.

Lemma authenticate_effects self s :
  ∃ tok, log (snd (authenticate self s)) = log s ++ tok
         ∧ requests tok = [] ∧ (exchanges tok ≤ 1)%nat
         ∧ now (snd (authenticate self s)) = now s.
Proof.
  unfold authenticate, cached_authenticate_impl, _authenticate_impl,
    bind, lift, gets, modify.
  destruct (cache_get (refresh_token self) s) as [v|].
  - exists []. simpl. rewrite app_nil_r. repeat split; (done || (unfold exchanges; simpl; lia)).
  - exists [EToken (client_id self) (grant_for (refresh_token self))]. simpl.
    destruct (token_server self (log s) (client_id self) (grant_for (refresh_token self)))
      as [response|e]; [destruct (token_of response)|];
      repeat split; (done || (unfold exchanges; simpl; lia)).
Qed.

Lemma ratelimit_effects self resp s :
  ∃ slp, log (snd (ratelimit self resp s)) = log s ++ slp
         ∧ requests slp = [] ∧ exchanges slp = 0%nat
         ∧ now s ≤ now (snd (ratelimit self resp s)).
Proof.
  unfold ratelimit, sleep, raise, ret, modify.
  repeat case_match;
    try (exists []; simpl; rewrite app_nil_r; repeat split; (done || lia)).
  eexists [ESleep _]. simpl. repeat split; (done || lia).
Qed.

(** The requests of one call of [_call]: none, or the one to the endpoint,
    which has been sent whenever a body is returned. *)
Lemma call_requests self endpoint p s :
  let url := "https://oauth.reddit.com" +:+ endpoint in
  ∃ new,
    log (snd (_call self endpoint p s)) = log s ++ new
    ∧ (requests new = [] ∨ requests new = [(url, raw_json p)])
    ∧ (∀ b, fst (_call self endpoint p s) = Ok b → requests new = [(url, raw_json p)]).
Proof.
  intros url.
  destruct (authenticate_effects self s) as (tok & Hlog & Hreq & _).
  destruct (_call self endpoint p s) as [x s'] eqn:Hc. simpl.
  unfold _call, bind at 1 in Hc. fold url in Hc.
  destruct (authenticate self s) as [[[]|e] s1]; simpl in Hlog.
  - unfold request, bind, gets, modify, lift in Hc. simpl in Hc.
    destruct (api_server self (log s1) url (raw_json p) (authorization s1)) as [resp|e].
    + destruct (ratelimit_effects self resp
                  (add_event (EGet url (raw_json p) (authorization s1)) s1))
        as (slp & Hl2 & Hr2 & _).
      exists (tok ++ [EGet url (raw_json p) (authorization s1)] ++ slp).
      rewrite !requests_app, Hreq, Hr2.
      destruct (ratelimit self resp _) as [[[]|e] s3]; simpl in Hl2; simplify_eq;
        (split; [by rewrite Hl2, Hlog, <- !app_assoc|]); (split; [by right | done]).
    + exists (tok ++ [EGet url (raw_json p) (authorization s1)]). simplify_eq. simpl.
      rewrite requests_app, Hreq. split; [by rewrite Hlog, <- app_assoc|].
      split; [by right | done].
  - exists tok. simplify_eq. rewrite Hreq. split; [done|]. split; [by left | done].
Qed.

(** X3. A call of [_call] only adds to the record of what was sent: at most
    one token request and at most one API request, which goes to the
    endpoint under [https://oauth.reddit.com] with [raw_json = 1] added to
    its parameters.  The request has been sent whenever a body is returned,
    and is not sent when authentication fails, whose exception is the
    call's.  The clock never goes back and no list object is touched. *)
Theorem call_effects (self : RedditAPI) (endpoint : string) (p : params) (s : state) :
  let url := "https://oauth.reddit.com" +:+ endpoint in
  let r := _call self endpoint p s in
  ∃ new,
    log (snd r) = log s ++ new
    ∧ (exchanges new ≤ 1)%nat
    ∧ (requests new = [] ∨ requests new = [(url, raw_json p)])
    ∧ (∀ b, fst r = Ok b → requests new = [(url, raw_json p)])
    ∧ (∀ e, fst (authenticate self s) = Raise e → fst r = Raise e ∧ requests new = [])
    ∧ now s ≤ now (snd r)
    ∧ heap (snd r) = heap s.
Proof.
  intros url r. subst r.
  destruct (_call self endpoint p s) as [x s'] eqn:Hc. simpl.
  pose proof (call_heap _ _ _ _ _ _ Hc) as Hheap.
  destruct (authenticate_effects self s) as (tok & Hlog & Hreq & Hex & Hnow).
  unfold _call, bind at 1 in Hc. fold url in Hc.
  destruct (authenticate self s) as [[[]|e] s1]; simpl in Hlog, Hnow.
  - unfold request, bind, gets, modify, lift in Hc. simpl in Hc.
    destruct (api_server self (log s1) url (raw_json p) (authorization s1)) as [resp|e].
    + destruct (ratelimit_effects self resp
                  (add_event (EGet url (raw_json p) (authorization s1)) s1))
        as (slp & Hl2 & Hr2 & He2 & Hn2).
      set (new := tok ++ [EGet url (raw_json p) (authorization s1)] ++ slp).
      assert (Hrn : requests new = [(url, raw_json p)]).
      { unfold new. by rewrite !requests_app, Hreq, Hr2. }
      assert (Hen : (exchanges new ≤ 1)%nat).
      { unfold new. rewrite !exchanges_app, He2. unfold exchanges at 2. simpl. lia. }
      exists new.
      destruct (ratelimit self resp _) as [[[]|e] s3]; simpl in Hl2, Hn2;
        simplify_eq;
        (split; [rewrite Hl2, Hlog; unfold new; by rewrite <- !app_assoc|]);
        (split; [done|]); (split; [by right|]);
        (split; [done|]); (split; [done|]); (split; [lia|done]).
    + set (new := tok ++ [EGet url (raw_json p) (authorization s1)]).
      assert (Hrn : requests new = [(url, raw_json p)]).
      { unfold new. by rewrite !requests_app, Hreq. }
      assert (Hen : (exchanges new ≤ 1)%nat).
      { unfold new. rewrite !exchanges_app. unfold exchanges at 2. simpl. lia. }
      exists new. simplify_eq. simpl. rewrite Hlog. unfold new at 1. rewrite <- app_assoc.
      split; [done|]. split; [done|]. split; [by right|].
      split; [done|]. split; [done|]. split; [lia|done].
  - exists tok. simplify_eq. split; [done|]. split; [done|]. split; [by left|].
    split; [done|]. split; [|split; [lia|done]].
    intros e' He'. simpl in He'. by simplify_eq.
Qed.

(** ** [morechildren] *)

Lemma mc_run_step self n m s :
  mc_run self (S n) m s =
  let '(o, m', s') := mc_step self m s in
  let '(ys, m'', s'') := mc_run self n m' s' in
  (option_list o ++ ys, m'', s'').
Proof. done. Qed.

(** X4. For one response, [morechildren] yields its comments in their
    order and appends the identifiers of its entries of kind more to
    [children], in their order; it makes no request meanwhile and does not
    look into the replies of the comments it yields. *)
Theorem morechildren_response (self : RedditAPI) (p : params) (children : list string)
    (index : nat) (done : bool) (things : list thing) (s : state) :
  mc_run self (S (length things)) (MFor p children index done things) s
  = (heads things, MLoop p (children ++ stubs things) index done, s).
Proof.
  revert children. induction things as [|[ids|data replies] things IH]; intros children.
  - simpl. by rewrite app_nil_r.
  - rewrite mc_run_step. cbn [mc_step length]. rewrite IH. simpl.
    by rewrite <- app_assoc.
  - rewrite mc_run_step. cbn [mc_step length]. by rewrite IH.
Qed.

Lemma mc_run_add' self n k m s :
  mc_run self (n + k) m s =
  let '(ys, m', s') := mc_run self n m s in
  let '(zs, m'', s'') := mc_run self k m' s' in
  (ys ++ zs, m'', s'').
Proof. apply mc_run_add. Qed.

(** After the last request the generator yields the comments of the
    response and returns, without any further effect. *)
Lemma mc_last_response self p index things s : ∀ children n,
  (length things + 2 ≤ n)%nat →
  mc_run self n (MFor p children index true things) s = (heads things, MStop, s).
Proof.
  induction things as [|[ids|data replies] things IH]; intros children n Hn.
  - destruct n as [|[|n]]; [simpl in Hn; lia..|].
    rewrite mc_run_step. cbn [mc_step]. rewrite mc_run_step. cbn [mc_step].
    by rewrite mc_run_over.
  - destruct n as [|n]; [simpl in Hn; lia|].
    rewrite mc_run_step. cbn [mc_step]. rewrite IH by (simpl in Hn; lia). done.
  - destruct n as [|n]; [simpl in Hn; lia|].
    rewrite mc_run_step. cbn [mc_step]. rewrite IH by (simpl in Hn; lia). done.
Qed.

(** X5. When fewer than 100 identifiers are left before a request, that
    request is the last one, whatever it returns: the comments of its
    response are yielded, the identifiers its response adds are never asked
    for, and the generator returns. *)
Theorem morechildren_last_request (self : RedditAPI) (p : params)
    (children : list string) (index : nat) (s s1 : state) (things : list thing) (n : nat) :
  let p1 := <["children" := PStr (join "," (slice children index (index + 100)))]> p in
  (length children < index + 100)%nat →
  _call self "/api/morechildren" p1 s = (Ok (BThings things), s1) →
  (length things + 3 ≤ n)%nat →
  mc_run self n (MLoop p children index false) s = (heads things, MStop, s1).
Proof.
  intros p1 Hlen Hcall Hn.
  destruct n as [|n]; [lia|].
  rewrite mc_run_step. cbn [mc_step]. fold p1. rewrite Hcall. cbn [things_of].
  assert (Hlt : (Z.of_nat (length children) - Z.of_nat index <? 100) = true).
  { apply Z.ltb_lt. lia. }
  rewrite Hlt. by rewrite mc_last_response by lia.
Qed.

Lemma morechildren_last_request_witness :
  mc_run no_things 3 (mc_init "t3_8cqhub" ["dxh1"; "dxh2"]) start
  = ([], MStop, snd (mc_run no_things 3 (mc_init "t3_8cqhub" ["dxh1"; "dxh2"]) start)).
Proof.
  unfold mc_init.
  rewrite (morechildren_last_request no_things _ ["dxh1"; "dxh2"] 0 start
             (snd (_call no_things "/api/morechildren"
                     (<["children" := PStr (join "," ["dxh1"; "dxh2"])]>
                        (<["api_type" := PStr "json"]>
                           (<["link_id" := PStr "t3_8cqhub"]> ∅))) start))
             [] 3).
  - reflexivity.
  - simpl. lia.
  - reflexivity.
  - simpl. lia.
Defined.

(** *** The blocks of identifiers [morechildren] asks for *)

Lemma mc_request_params l p b :
  mc_kept l p →
  ("https://oauth.reddit.com" +:+ "/api/morechildren",
   raw_json (<["children" := PStr (join "," b)]> p)) = mc_request l b.
Proof.
  intros Hk. unfold mc_request, raw_json. f_equal. apply map_eq. intros k.
  destruct (decide (k = "raw_json")) as [->|Hr]; [by rewrite !lookup_insert_eq|].
  rewrite !(lookup_insert_ne _ "raw_json") by done.
  destruct (decide (k = "children")) as [->|Hc]; [by rewrite !lookup_insert_eq|].
  rewrite !(lookup_insert_ne _ "children") by done. by apply Hk.
Qed.

Lemma mc_kept_next l p b :
  mc_kept l p → mc_kept l (raw_json (<["children" := PStr (join "," b)]> p)).
Proof.
  intros Hk k Hc Hr. unfold raw_json. rewrite !lookup_insert_ne by done. by apply Hk.
Qed.

Lemma mc_kept_base l : mc_kept l (mc_base l).
Proof. by intros k _ _. Qed.

Lemma slice_full_length {A} (cs : list A) i :
  (i + 100 ≤ length cs)%nat → length (slice cs i (i + 100)) = 100%nat.
Proof.
  intros H. unfold slice. rewrite length_firstn, length_skipn. lia.
Qed.

Lemma slice_then_rest {A} (cs t : list A) i :
  (i + 100 ≤ length cs)%nat →
  drop i (cs ++ t) = slice cs i (i + 100) ++ drop (i + 100) (cs ++ t).
Proof.
  intros H. unfold slice. replace (i + 100 - i)%nat with 100%nat by lia.
  rewrite !drop_app_le by lia.
  rewrite <- (take_drop 100 (drop i cs)) at 1. rewrite drop_drop, <- app_assoc. done.
Qed.

Lemma slice_prefix {A} (cs t : list A) i :
  (i ≤ length cs)%nat → slice cs i (i + 100) `prefix_of` drop i (cs ++ t).
Proof.
  intros H. unfold slice. replace (i + 100 - i)%nat with 100%nat by lia.
  rewrite drop_app_le by lia. exists (drop 100 (drop i cs) ++ t).
  by rewrite app_assoc, take_drop.
Qed.

(** The requests of a run from any state of the generator. *)
Lemma mc_run_blocks self l n : ∀ m s,
  mc_wf l m →
  ∃ new blocks cs,
    log (snd (mc_run self n m s)) = log s ++ new
    ∧ requests new = map (mc_request l) blocks
    ∧ mc_cs m `prefix_of` cs
    ∧ concat blocks `prefix_of` drop (mc_index m) cs
    ∧ Forall (λ b, (length b ≤ 100)%nat) blocks
    ∧ (∀ k b, blocks !! k = Some b → (S k < length blocks)%nat → length b = 100%nat)
    ∧ (mc_done m = true → blocks = [])
    ∧ mc_holds (snd (fst (mc_run self n m s))) cs.
Proof.
  assert (Hnone : ∀ s' m' cs (m : mc_state),
            mc_cs m = cs → mc_holds m' cs →
            ∃ new blocks cs',
              log s' = log s' ++ new
              ∧ requests new = map (mc_request l) blocks
              ∧ mc_cs m `prefix_of` cs'
              ∧ concat blocks `prefix_of` drop (mc_index m) cs'
              ∧ Forall (λ b, (length b ≤ 100)%nat) blocks
              ∧ (∀ k b, blocks !! k = Some b → (S k < length blocks)%nat →
                    length b = 100%nat)
              ∧ (mc_done m = true → blocks = [])
              ∧ mc_holds m' cs').
  { intros s' m' cs m Hcs Hm'. exists [], [], cs. rewrite app_nil_r, Hcs.
    repeat split; try done. apply prefix_nil. }
  induction n as [|n IH]; intros m s Hwf.
  - simpl. by apply (Hnone s m (mc_cs m) m); [|destruct m].
  - rewrite mc_run_step.
    destruct m as [p cs0 i d|p cs0 i d things| |e].
    + cbn [mc_step]. destruct d.
      { rewrite mc_run_over by done. simpl.
        by apply (Hnone s MStop cs0 (MLoop p cs0 i true)). }
      destruct Hwf as [Hk Hi]. specialize (Hi eq_refl).
      set (b0 := slice cs0 i (i + 100)).
      set (p1 := <["children" := PStr (join "," b0)]> p).
      destruct (call_requests self "/api/morechildren" p1 s) as (new1 & Hl1 & Hr1 & Hok).
      cbv zeta in Hr1, Hok. unfold p1 in Hr1, Hok.
      rewrite (mc_request_params l p b0 Hk) in Hr1, Hok. fold p1 in Hl1, Hok.
      assert (Hb0 : (length b0 ≤ 100)%nat) by apply slice_length.
      assert (Hover : ∀ m1 s1, mc_over m1 = true → log s1 = log s ++ new1 →
                ∃ new blocks cs,
                  log (snd (let '(ys, m'', s'') := mc_run self n m1 s1 in
                            (option_list (@None comment) ++ ys, m'', s''))) = log s ++ new
                  ∧ requests new = map (mc_request l) blocks
                  ∧ cs0 `prefix_of` cs
                  ∧ concat blocks `prefix_of` drop i cs
                  ∧ Forall (λ b, (length b ≤ 100)%nat) blocks
                  ∧ (∀ k b, blocks !! k = Some b → (S k < length blocks)%nat →
                        length b = 100%nat)
                  ∧ (false = true → blocks = [])
                  ∧ mc_holds (snd (fst (let '(ys, m'', s'') := mc_run self n m1 s1 in
                            (option_list (@None comment) ++ ys, m'', s'')))) cs).
      { intros m1 s1 Hm1 Hlog. rewrite mc_run_over by done. simpl.
        destruct Hr1 as [Hr1|Hr1].
        - exists new1, [], cs0. rewrite Hr1. repeat split; try done; [apply prefix_nil|].
          by destruct m1.
        - exists new1, [b0], cs0. rewrite Hr1. simpl. rewrite app_nil_r.
          repeat split; try done.
          + pose proof (slice_prefix cs0 [] i Hi) as Hp. by rewrite app_nil_r in Hp.
          + constructor; [exact Hb0 | constructor].
          + intros k b Hkb Hlt. simpl in Hlt. lia.
          + by destruct m1. }
      destruct (_call self "/api/morechildren" p1 s) as [[b|e] s1] eqn:Hc;
        simpl in Hl1, Hok; [|by apply Hover].
      destruct (things_of b) as [things|e]; [|by apply Hover].
      specialize (Hok b eq_refl). clear Hover Hr1.
      set (d' := if Z.of_nat (length cs0) - Z.of_nat i <? 100 then true else false).
      assert (Hd' : d' = false → (i + 100 ≤ length cs0)%nat).
      { unfold d'. destruct (Z.ltb_spec (Z.of_nat (length cs0) - Z.of_nat i) 100); [done|].
        intros _. lia. }
      destruct (IH (MFor (raw_json p1) cs0 (i + 100) d' things) s1)
        as (new2 & blocks2 & cs & Hl2 & Hr2 & Hpre & Hcat & Hlen & Hfull & Hdone & Hholds).
      { split; [by apply mc_kept_next | exact Hd']. }
      destruct (mc_run self n (MFor (raw_json p1) cs0 (i + 100) d' things) s1)
        as [[ys m2] s2]. simpl in Hl2, Hholds, Hpre, Hcat, Hdone |- *.
      destruct Hpre as [t ->].
      exists (new1 ++ new2), (b0 :: blocks2), (cs0 ++ t).
      rewrite requests_app, Hok, Hr2, Hl2, Hl1, <- app_assoc. simpl.
      repeat split; try done.
      * by exists t.
      * destruct d' eqn:Hdd.
        -- rewrite (Hdone eq_refl). simpl. rewrite app_nil_r. by apply slice_prefix.
        -- rewrite (slice_then_rest cs0 t i) by auto. fold b0. by apply prefix_app.
      * by constructor.
      * intros k b' Hkb Hlt. destruct k as [|k].
        -- simpl in Hkb. injection Hkb as <-.
           destruct d' eqn:Hdd.
           ++ rewrite (Hdone eq_refl) in Hlt. simpl in Hlt. lia.
           ++ apply slice_full_length. auto.
        -- simpl in Hkb. apply (Hfull k b' Hkb). simpl in Hlt. lia.
    + destruct Hwf as [Hk Hi]. cbn [mc_step].
      destruct things as [|[ids|data replies] things].
      * destruct (IH (MLoop p cs0 i d) s) as (new & blocks & cs & H); [done|].
        destruct (mc_run self n (MLoop p cs0 i d) s) as [[ys m2] s2].
        by exists new, blocks, cs.
      * destruct (IH (MFor p (cs0 ++ ids) i d things) s)
          as (new & blocks & cs & Hl & Hr & Hpre & Hrest).
        { split; [done|]. intros Hd. specialize (Hi Hd). rewrite length_app. lia. }
        destruct (mc_run self n (MFor p (cs0 ++ ids) i d things) s) as [[ys m2] s2].
        exists new, blocks, cs. simpl in *.
        split; [done|]. split; [done|]. split; [|done].
        destruct Hpre as [t ->]. exists (ids ++ t). by rewrite app_assoc.
      * destruct (IH (MFor p cs0 i d things) s) as (new & blocks & cs & H); [done|].
        destruct (mc_run self n (MFor p cs0 i d things) s) as [[ys m2] s2].
        by exists new, blocks, cs.
    + cbn [mc_step]. rewrite mc_run_over by done. simpl.
      by apply (Hnone s MStop [] MStop).
    + cbn [mc_step]. rewrite mc_run_over by done. simpl.
      by apply (Hnone s (MRaised e) [] (MRaised e)).
Qed.

(** X6. Every request [morechildren] makes goes to its endpoint and carries
    the [link_id] it was given, [api_type = json], [raw_json = 1] and, as
    [children], the comma-joined identifiers of one block, and nothing
    else.  The blocks, one after the other, are the beginning of the list
    [children] as it has grown by then, the identifiers given first: no
    identifier is left out or asked for twice, every block but the last
    holds exactly 100 of them and the last at most 100.  This holds of a
    run of any length, whatever the server returns. *)
Theorem morechildren_requests_well_formed (self : RedditAPI) (l : string)
    (children : list string) (n : nat) (s : state) :
  let r := mc_run self n (mc_init l children) s in
  ∃ new blocks cs,
    log (snd r) = log s ++ new
    ∧ requests new = map (mc_request l) blocks
    ∧ children `prefix_of` cs
    ∧ concat blocks `prefix_of` cs
    ∧ Forall (λ b, (length b ≤ 100)%nat) blocks
    ∧ (∀ k b, blocks !! k = Some b → (S k < length blocks)%nat → length b = 100%nat)
    ∧ mc_holds (snd (fst r)) cs.
Proof.
  intros r. subst r.
  destruct (mc_run_blocks self l n (mc_init l children) s)
    as (new & blocks & cs & Hl & Hr & Hpre & Hcat & Hlen & Hfull & _ & Hholds).
  { split; [apply mc_kept_base | simpl; lia]. }
  exists new, blocks, cs. simpl in Hpre, Hcat. by rewrite drop_0 in Hcat.
Qed.

(** ** [submission] *)

(** X7. [submission] asks for [/comments/<id>/.json] with the comment limit
    and passes on what [_call] raises.  With comments disabled it returns
    the post alone.  Otherwise it returns the post with a generator over a
    list object that did not exist before and holds the comments of the
    response, every list there was is left as it was, the [link_id] is
    [t3_<id>] exactly when [morecomments] is set, and consuming the
    generator first yields the comments in queue order. *)
Theorem submission_result (self : RedditAPI) (sid : string) (s : state) :
  let endpoint := "/comments/" +:+ sid +:+ "/.json" in
  let limit : params := {[ "limit" := PInt (comments self) ]} in
  let link_id := if morecomments self then Some ("t3_" +:+ sid) else None in
  (∀ e s1, _call self endpoint limit s = (Raise e, s1) →
      submission self sid s = (Raise e, s1))
  ∧ (∀ p cs s1, _call self endpoint limit s = (Ok (BSubmission p cs), s1) →
        (comments self = 0 → submission self sid s = (Ok (Some p, None), s1))
        ∧ (comments self ≠ 0 →
           ∃ l, heap s !! l = None
                ∧ submission self sid s
                  = (Ok (Some p, Some (CGen l link_id)), assign l cs s1)
                ∧ (∀ l', l' ≠ l → deref l' (assign l cs s1) = deref l' s)
                ∧ ∃ n extra s2,
                    fl_run self l link_id n _flatten (assign l cs s1)
                    = (flat cs, FLoop extra, s2)
                    ∧ deref l s2 = [])).
Proof.
  intros endpoint limit link_id. split.
  - intros e s1 Hc. unfold submission, bind. fold endpoint limit. by rewrite Hc.
  - intros p cs s1 Hc. pose proof (call_heap _ _ _ _ _ _ Hc) as Hheap. split.
    + intros H0. unfold submission, bind. fold endpoint limit. rewrite Hc. simpl.
      by rewrite H0.
    + intros H0. exists (fresh (dom (heap s1))).
      assert (Hfresh : heap s !! fresh (dom (heap s1)) = None).
      { rewrite <- Hheap. apply not_elem_of_dom. apply is_fresh. }
      split; [done|]. split.
      * unfold submission, bind. fold endpoint limit. rewrite Hc. simpl.
        destruct (Z.eqb_spec (comments self) 0); [done|]. done.
      * split.
        -- intros l' Hne. unfold deref, assign. simpl.
           by rewrite lookup_insert_ne, Hheap by done.
        -- destruct (fl_drain_flat self (fresh (dom (heap s1))) link_id
                       (assign (fresh (dom (heap s1))) cs s1))
             as (n & s2 & Hn & Hd & _).
           rewrite deref_assign in Hn. by eexists n, _, s2.
Qed.

Lemma submission_result_witness :
  let api := answering (Response ∅ (Some (BSubmission (a_post "8cqhub")
                                            [TComment (cm "dxh1") None]))) in
  ∃ l s', submission api "8cqhub" start
          = (Ok (Some (a_post "8cqhub"), Some (CGen l (Some "t3_8cqhub"))), s')
          ∧ deref l s' = [TComment (cm "dxh1") None].
Proof.
  intros api.
  destruct (submission_result api "8cqhub" start) as [_ H].
  destruct (H (a_post "8cqhub") [TComment (cm "dxh1") None]
              (snd (_call api "/comments/8cqhub/.json"
                      {[ "limit" := PInt (comments api) ]} start)) eq_refl) as [_ H2].
  destruct H2 as (l & _ & Hs & _); [done|].
  eexists l, _. split; [exact Hs | apply deref_assign].
Defined.

(** ** [_pagination], [submissions_subreddit] and [submissions_user] *)

Lemma pg_run_step self endpoint n g s :
  pg_run self endpoint (S n) g s =
  let '(o, g', s') := pg_step self endpoint g s in
  let '(tr, g'', s'') := pg_run self endpoint n g' s' in
  (pg_trace o ++ tr, g'', s'').
Proof. done. Qed.

Lemma Forall_pg_trace (P : pg_obs → Prop) o : P o → Forall P (pg_trace o).
Proof. intros H. destruct o; simpl; repeat constructor; done. Qed.

(** A property of the observations that every step keeps, along an
    invariant of the states, holds of every run. *)
Lemma pg_run_invariant self endpoint (I : pg_state → Prop) (P : pg_obs → Prop) :
  P PQuiet →
  (∀ g s, I g → P (fst (fst (pg_step self endpoint g s)))
                 ∧ I (snd (fst (pg_step self endpoint g s)))) →
  ∀ n g s, I g →
    Forall P (fst (fst (pg_run self endpoint n g s)))
    ∧ I (snd (fst (pg_run self endpoint n g s))).
Proof.
  intros HQ Hstep. induction n as [|n IH]; intros g s Hg.
  - simpl. split; [constructor | done].
  - rewrite pg_run_step. destruct (Hstep g s Hg) as [Ho Hg1].
    destruct (pg_step self endpoint g s) as [[o g1] s1]. simpl in Ho, Hg1.
    destruct (IH g1 s1 Hg1) as [Htr Hg2].
    destruct (pg_run self endpoint n g1 s1) as [[tr g2] s2]. simpl in *.
    split; [|done]. apply Forall_app. split; [|done]. by apply Forall_pg_trace.
Qed.

Lemma pg_step_passed self endpoint a b g s :
  pg_bounds self a b g →
  passed self a b (fst (fst (pg_step self endpoint g s)))
  ∧ pg_bounds self a b (snd (fst (pg_step self endpoint g s))).
Proof.
  intros Hg.
  destruct g as [p|a' b' p|a' b' p [|c cs] after| |e]; unfold pg_step.
  - destruct Hg as [Ha Hb]. by rewrite Ha, Hb.
  - destruct (_call self endpoint p s) as [[body|e] s1]; [|done].
    by destruct (listing_of body) as [[children after]|e].
  - destruct after as [x|]; [|done]. by destruct (truthy (Some x)).
  - destruct Hg as [-> ->].
    destruct (in_range self a b c) as [[|]|e] eqn:Hr; [|done|done].
    destruct c as [post|cmt|kind i t]; simpl.
    + destruct (comments self =? 0) eqn:Hc0; [by rewrite andb_false_r|].
      destruct (num_comments post =? 0); [done|]. simpl.
      assert (Hsub : ∀ x s1, submission self (id post) s = (Ok x, s1) →
                             ∃ l k, snd x = Some (CGen l k)).
      { intros x s1 Hs. unfold submission, bind, lift, ret in Hs.
        destruct (_call self _ _ s) as [[body|e] s0]; [|done]. simpl in Hs.
        destruct (unpack_submission body) as [[p0 c0]|e]; [|done]. simpl in Hs.
        rewrite Hc0 in Hs. simpl in Hs. unfold alloc in Hs. simplify_eq.
        by eexists _, _. }
      destruct (submission self (id post) s) as [[x|e] s1]; simpl.
      * destruct (Hsub x s1 eq_refl) as (l & k & Hx).
        destruct x as [[p0|] x2]; simpl in Hx; by subst x2.
      * by destruct e.
    + by destruct (negb (comments self =? 0)).
    + done.
  - done.
  - done.
Qed.

(** X8. Whatever [_pagination] yields of the listing itself, a post without
    its comments or a comment, passed the filter: its date lies between
    [date_min] and [date_max] and its identifier decodes to a number
    between the bounds [id-min] and [id-max] were parsed to. *)
Theorem pagination_yields_within_bounds (self : RedditAPI) (endpoint : string)
    (a b : Z) (n : nat) (p : params) (s : state) :
  _parse_id (config_id_min self) 0 = Ok a →
  _parse_id (config_id_max self) 2147483647 = Ok b →
  Forall (passed self a b) (fst (fst (pg_run self endpoint n (PStart p) s)))
  ∧ (∀ c, in_range self a b c = Ok true →
       Qle_bool (date_min self) (child_created_utc c) = true
       ∧ Qle_bool (child_created_utc c) (date_max self) = true
       ∧ ∃ i, _decode (child_id c) = Ok i ∧ a ≤ i ≤ b).
Proof.
  intros Ha Hb. split.
  - apply (pg_run_invariant self endpoint (pg_bounds self a b) (passed self a b)).
    + done.
    + intros g s0 Hg. by apply pg_step_passed.
    + done.
  - intros c. unfold in_range.
    destruct (Qle_bool (date_min self) (child_created_utc c)); [|done].
    destruct (Qle_bool (child_created_utc c) (date_max self)); [|done]. simpl.
    destruct (_decode (child_id c)) as [i|e]; [|done].
    intros Hi. split; [done|]. split; [done|]. exists i. split; [done|].
    injection Hi as Hi. apply andb_prop in Hi as [H1 H2]. lia.
Qed.

Lemma pagination_yields_within_bounds_witness :
  Forall (passed two_pages 0 2147483647)
    (fst (fst (pg_run two_pages "/r/lavaporn/.json" 7
                 (PStart {[ "limit" := PInt 100 ]}) start))).
Proof.
  exact (proj1 (pagination_yields_within_bounds two_pages "/r/lavaporn/.json"
                  0 2147483647 7 {[ "limit" := PInt 100 ]} start eq_refl eq_refl)).
Defined.

(** X9. A post of the listing whose comments are wanted and whose detail
    request ends in [AuthorizationError] is skipped: nothing is yielded for
    it and the generator goes on with the next item; any other exception of
    that request ends the generator with it. *)
Theorem pagination_skips_forbidden_post (self : RedditAPI) (endpoint : string)
    (a b : Z) (p : params) (post : post) (children : list child) (after : option string)
    (s s1 : state) (e : exn) :
  in_range self a b (T3 post) = Ok true →
  num_comments post ≠ 0 → comments self ≠ 0 →
  _call self ("/comments/" +:+ id post +:+ "/.json")
    {[ "limit" := PInt (comments self) ]} s = (Raise e, s1) →
  pg_step self endpoint (PFor a b p (T3 post :: children) after) s
  = match e with
    | AuthorizationError => (PQuiet, PFor a b p children after, s1)
    | _ => (PQuiet, PRaised e, s1)
    end.
Proof.
  intros Hr Hn Hc Hcall. cbn [pg_step]. rewrite Hr. cbn [pg_child].
  destruct (Z.eqb_spec (num_comments post) 0); [done|].
  destruct (Z.eqb_spec (comments self) 0); [done|]. simpl.
  unfold submission, bind. rewrite Hcall. by destruct e.
Qed.

Lemma pagination_skips_forbidden_post_witness :
  let api := answering forbidden in
  let post := Post "8cqhub" (inject_Z 1523858763) 3 false "https://example.org/a.jpg" None in
  fst (pg_step api "/r/lavaporn/.json" (PFor 0 2147483647 ∅ [T3 post] None) start)
  = (PQuiet, PFor 0 2147483647 ∅ [] None).
Proof.
  intros api post.
  rewrite (pagination_skips_forbidden_post api "/r/lavaporn/.json" 0 2147483647 ∅ post
             [] None start
             (snd (_call api "/comments/8cqhub/.json" {[ "limit" := PInt 500 ]} start))
             AuthorizationError).
  - reflexivity.
  - reflexivity.
  - discriminate.
  - discriminate.
  - reflexivity.
Defined.

Lemma pg_step_post_only self endpoint g s :
  comments self = 0 →
  let url := "https://oauth.reddit.com" +:+ endpoint in
  let r := pg_step self endpoint g s in
  post_only (fst (fst r))
  ∧ ∃ new, log (snd r) = log s ++ new ∧ Forall (fun q => fst q = url) (requests new).
Proof.
  intros Hc url r.
  assert (Hnone : ∃ new, log s = log s ++ new ∧ Forall (fun q => fst q = url) (requests new)).
  { exists []. rewrite app_nil_r. split; [done | constructor]. }
  subst r. destruct g as [p|a b p|a b p [|c cs] after| |e]; unfold pg_step.
  - by repeat case_match.
  - destruct (call_requests self endpoint p s) as (new & Hlog & Hreq & _).
    fold url in Hreq.
    assert (Hnew : ∃ new, log (snd (_call self endpoint p s)) = log s ++ new
                          ∧ Forall (fun q => fst q = url) (requests new)).
    { exists new. split; [done|]. destruct Hreq as [-> | ->]; repeat constructor. }
    destruct (_call self endpoint p s) as [[body|e] s1]; simpl in Hnew; [|done].
    by destruct (listing_of body) as [[children after]|e].
  - by repeat case_match.
  - destruct (in_range self a b c) as [[|]|e]; [|done|done].
    destruct c as [post|cmt|kind i t]; simpl; rewrite ?Hc; simpl.
    + rewrite andb_false_r. simpl. split; [|done]. split; [by eexists | done].
    + done.
    + done.
  - done.
  - done.
Qed.

(** X10. With comments disabled ([comments] is 0), [_pagination] only ever
    requests the listing itself: every request it sends goes to the listing
    endpoint, and all it yields are posts of the listing without comments;
    comment items are never yielded. *)
Theorem pagination_without_comments (self : RedditAPI) (endpoint : string)
    (n : nat) (g : pg_state) (s : state) :
  comments self = 0 →
  let r := pg_run self endpoint n g s in
  Forall post_only (fst (fst r))
  ∧ ∃ new, log (snd r) = log s ++ new
           ∧ Forall (fun q => fst q = "https://oauth.reddit.com" +:+ endpoint)
               (requests new).
Proof.
  intros Hc. simpl. revert g s. induction n as [|n IH]; intros g s.
  - simpl. split; [constructor|]. exists []. rewrite app_nil_r. split; [done|constructor].
  - rewrite pg_run_step.
    destruct (pg_step_post_only self endpoint g s Hc) as (Ho & new1 & Hl1 & Hf1).
    destruct (pg_step self endpoint g s) as [[o g1] s1]. simpl in Ho, Hl1.
    destruct (IH g1 s1) as (Htr & new2 & Hl2 & Hf2).
    destruct (pg_run self endpoint n g1 s1) as [[tr g2] s2]. simpl in *.
    split.
    + apply Forall_app. split; [|done]. by apply Forall_pg_trace.
    + exists (new1 ++ new2). rewrite Hl2, Hl1, <- app_assoc. split; [done|].
      rewrite requests_app. by apply Forall_app.
Qed.

Lemma pagination_without_comments_witness :
  Forall post_only
    (fst (fst (pg_run two_pages "/r/lavaporn/.json" 7
                 (PStart {[ "limit" := PInt 100 ]}) start))).
Proof.
  exact (proj1 (pagination_without_comments two_pages "/r/lavaporn/.json" 7
                  (PStart {[ "limit" := PInt 100 ]}) start eq_refl)).
Defined.



(** ** [_parse_id] *)

Lemma after_last_suffix c pre x :
  occurs c x = false → after_last c (pre +:+ String c x) = x.
Proof.
  intros Hx. induction pre as [|a pre IH]; simpl.
  - rewrite Hx. by rewrite Ascii.eqb_refl.
  - assert (Ho : occurs c (pre +:+ String c x) = true).
    { clear IH. unfold occurs. induction pre as [|b pre IH]; simpl.
      - by rewrite Ascii.eqb_refl.
      - rewrite IH. by rewrite orb_true_r. }
    by rewrite Ho.
Qed.

Lemma after_last_none c v : occurs c v = false → after_last c v = v.
Proof.
  destruct v as [|a v]; [done|]. simpl. unfold occurs. simpl.
  intros H. apply orb_false_elim in H as [Ha Hv].
  fold (occurs c v). unfold occurs. rewrite Hv.
  rewrite Ascii.eqb_sym. by rewrite Ha.
Qed.

Lemma lower_ascii_underscore a :
  Ascii.eqb (lower_ascii a) "_" = Ascii.eqb a "_".
Proof. destruct a as [[] [] [] [] [] [] [] []]; reflexivity. Qed.

Lemma lower_ascii_idem a : lower_ascii (lower_ascii a) = lower_ascii a.
Proof. destruct a as [[] [] [] [] [] [] [] []]; reflexivity. Qed.

Lemma lower_idem v : lower (lower v) = lower v.
Proof. induction v as [|a v IH]; simpl; [done|]. by rewrite lower_ascii_idem, IH. Qed.

Lemma occurs_cons c a v : occurs c (String a v) = Ascii.eqb c a || occurs c v.
Proof. done. Qed.

Lemma after_last_cons c a v :
  after_last c (String a v) =
  if occurs c v then after_last c v else if Ascii.eqb a c then v else String a v.
Proof. done. Qed.

Lemma occurs_lower v : occurs "_" (lower v) = occurs "_" v.
Proof.
  induction v as [|a v IH]; [done|].
  change (lower (String a v)) with (String (lower_ascii a) (lower v)).
  rewrite !occurs_cons, IH. f_equal.
  rewrite (Ascii.eqb_sym "_" (lower_ascii a)), (Ascii.eqb_sym "_" a).
  apply lower_ascii_underscore.
Qed.

Lemma after_last_lower v : after_last "_" (lower v) = lower (after_last "_" v).
Proof.
  induction v as [|a v IH]; [done|].
  change (lower (String a v)) with (String (lower_ascii a) (lower v)).
  rewrite !after_last_cons, occurs_lower. destruct (occurs "_" v); [done|].
  rewrite lower_ascii_underscore. by destruct (Ascii.eqb a "_").
Qed.

Lemma lower_empty v : String.eqb (lower v) EmptyString = String.eqb v EmptyString.
Proof. by destruct v. Qed.

(** X12. [_parse_id] gives the default for an option that is unset or
    empty; otherwise it decodes what follows the last underscore, so that a
    full name such as [t3_8cqhub] stands for its identifier, and it does not
    tell upper case from lower case. *)
Theorem parse_id_forms (default : Z) :
  _parse_id None default = Ok default
  ∧ _parse_id (Some EmptyString) default = Ok default
  ∧ (∀ pre x, occurs "_" x = false →
       _parse_id (Some (pre +:+ String "_" x)) default = _decode (lower x))
  ∧ (∀ v, v ≠ EmptyString → occurs "_" v = false →
       _parse_id (Some v) default = _decode (lower v))
  ∧ (∀ v, _parse_id (Some (lower v)) default = _parse_id (Some v) default).
Proof.
  split; [done|]. split; [done|]. split; [|split].
  - intros pre x Hx. unfold _parse_id, truthy.
    assert (Hne : String.eqb (pre +:+ String "_" x) EmptyString = false)
      by (by destruct pre).
    rewrite Hne. simpl. by rewrite after_last_suffix.
  - intros v Hv Hx. unfold _parse_id, truthy.
    destruct (String.eqb_spec v EmptyString); [done|]. simpl.
    by rewrite after_last_none.
  - intros v. unfold _parse_id, truthy. rewrite lower_empty.
    destruct (String.eqb v EmptyString); [done|]. simpl.
    by rewrite after_last_lower, lower_idem.
Qed.

Lemma parse_id_forms_witness :
  _parse_id (Some "t3_8CQHUB") 0 = _parse_id (Some "8cqhub") 0
  ∧ _parse_id (Some "8cqhub") 0 = Ok 505120979.
Proof.
  destruct (parse_id_forms 0) as (_ & _ & H3 & H4 & _).
  split; [|reflexivity].
  transitivity (_decode (lower "8CQHUB")).
  - exact (H3 "t3" "8CQHUB" eq_refl).
  - symmetry. apply (H4 "8cqhub"); [discriminate | reflexivity].
Defined.

(** ** The submission pattern and the links of [items] *)

Lemma all_chars_cons f c s : all_chars f (String c s) = f c && all_chars f s.
Proof. done. Qed.

Lemma span_cons f c s :
  span f (String c s) = if f c then let '(a, b) := span f s in (String c a, b)
                        else (EmptyString, String c s).
Proof. done. Qed.

Lemma span_sound f s : ∀ a b,
  span f s = (a, b) → all_chars f a = true ∧ stops f b = true ∧ s = a +:+ b.
Proof.
  induction s as [|c s IH]; intros a b H.
  - simpl in H. by simplify_eq.
  - rewrite span_cons in H. destruct (f c) eqn:Hc.
    + destruct (span f s) as [a1 b1]. simplify_eq.
      destruct (IH a1 b eq_refl) as (Ha & Hb & ->).
      rewrite all_chars_cons, Hc, Ha. done.
    + simplify_eq. simpl. by rewrite Hc.
Qed.

Lemma span_app f a b :
  all_chars f a = true → stops f b = true → span f (a +:+ b) = (a, b).
Proof.
  intros Ha Hb. induction a as [|c a IH].
  - destruct b as [|c b]; [done|]. simpl in Hb.
    change (EmptyString +:+ String c b) with (String c b). rewrite span_cons.
    by destruct (f c).
  - rewrite all_chars_cons in Ha. apply andb_prop in Ha as [Hc Ha].
    change (String c a +:+ b) with (String c (a +:+ b)).
    by rewrite span_cons, Hc, (IH Ha).
Qed.

Lemma starts_with_app pre s : starts_with pre (pre +:+ s) = true.
Proof.
  induction pre as [|c pre IH]; [by destruct s|].
  change (starts_with (String c pre) (String c pre +:+ s))
    with (Ascii.eqb c c && starts_with pre (pre +:+ s)).
  by rewrite Ascii.eqb_refl, IH.
Qed.

Lemma drop_string_app pre s : drop_string (String.length pre) (pre +:+ s) = s.
Proof. induction pre as [|c pre IH]; [by destruct s|]. exact IH. Qed.

Lemma strip_prefix_app pre s : strip_prefix pre (pre +:+ s) = Some s.
Proof. unfold strip_prefix. by rewrite starts_with_app, drop_string_app. Qed.

Lemma match_id_sound s g :
  match_id s = Some g → g ≠ EmptyString ∧ all_chars is_id_char g = true.
Proof.
  unfold match_id. destruct (strip_prefix "/" s) as [r|]; [|done].
  destruct (span is_id_char r) as [a b] eqn:Hs.
  destruct (String.eqb_spec a EmptyString); [done|]. intros H. simplify_eq.
  by destruct (span_sound _ _ _ _ Hs) as (Ha & _ & _).
Qed.

Lemma match_comments_sound s g :
  match_comments s = Some g → g ≠ EmptyString ∧ all_chars is_id_char g = true.
Proof.
  unfold match_comments. destruct (strip_prefix "reddit.com/r/" s) as [r|]; [|done].
  destruct (span is_name_char r) as [a b].
  destruct (String.eqb a EmptyString); [done|].
  destruct (strip_prefix "/comments" b) as [r'|]; [|done]. apply match_id_sound.
Qed.

Lemma match_host_sound s g :
  match_host s = Some g → g ≠ EmptyString ∧ all_chars is_id_char g = true.
Proof.
  unfold match_host, match_long, match_short, orelse.
  destruct (span is_word_char s) as [w r].
  repeat case_match; intros Hg; simplify_eq;
    (by eapply match_comments_sound) || (by eapply match_id_sound).
Qed.

Lemma match_id_complete i rest :
  i ≠ EmptyString → all_chars is_id_char i = true → stops is_id_char rest = true →
  match_id ("/" +:+ i +:+ rest) = Some i.
Proof.
  intros Hne Hi Hr. unfold match_id. rewrite strip_prefix_app, span_app by done.
  by destruct (String.eqb_spec i EmptyString).
Qed.

Lemma match_comments_complete name i rest :
  name ≠ EmptyString → all_chars is_name_char name = true →
  i ≠ EmptyString → all_chars is_id_char i = true → stops is_id_char rest = true →
  match_comments ("reddit.com/r/" +:+ name +:+ "/comments/" +:+ i +:+ rest) = Some i.
Proof.
  intros Hn Hname Hne Hi Hr. unfold match_comments.
  rewrite strip_prefix_app.
  rewrite (span_app is_name_char name ("/comments/" +:+ i +:+ rest)) by done.
  destruct (String.eqb_spec name EmptyString); [done|].
  change ("/comments/" +:+ i +:+ rest) with ("/comments" +:+ ("/" +:+ i +:+ rest)).
  rewrite strip_prefix_app. by apply match_id_complete.
Qed.

(** X13. [RedditSubmissionExtractor.pattern]: what it captures is never
    empty and made of lower-case letters and digits only; and it captures
    the identifier of a comments url of any subreddit, with or without a
    host label such as [www] or [old], and of a [redd.it] short link,
    whatever follows the identifier. *)
Theorem submission_pattern_captures (name i rest : string) :
  (∀ u g, submission_pattern_match u = Some g →
      g ≠ EmptyString ∧ all_chars is_id_char g = true)
  ∧ (name ≠ EmptyString → all_chars is_name_char name = true →
     i ≠ EmptyString → all_chars is_id_char i = true → stops is_id_char rest = true →
     (∀ w, w ≠ EmptyString → all_chars is_word_char w = true →
        submission_pattern_match
          ("https://" +:+ w +:+ ".reddit.com/r/" +:+ name +:+ "/comments/" +:+ i +:+ rest)
        = Some i)
     ∧ submission_pattern_match
         ("https://reddit.com/r/" +:+ name +:+ "/comments/" +:+ i +:+ rest) = Some i
     ∧ submission_pattern_match ("https://redd.it/" +:+ i +:+ rest) = Some i).
Proof.
  split.
  - intros u g. unfold submission_pattern_match, orelse.
    repeat case_match; intros Hg; simplify_eq; by eapply match_host_sound.
  - intros Hn Hname Hne Hi Hr. split; [|split].
    + intros w Hw Hword. unfold submission_pattern_match.
      rewrite strip_prefix_app. unfold match_host, match_long.
      change (w +:+ ".reddit.com/r/" +:+ name +:+ "/comments/" +:+ i +:+ rest)
        with (w +:+ ("." +:+ ("reddit.com/r/" +:+ name +:+ "/comments/" +:+ i +:+ rest))).
      rewrite span_app by done.
      destruct (String.eqb_spec w EmptyString); [done|].
      rewrite strip_prefix_app, match_comments_complete by done. done.
    + unfold submission_pattern_match.
      change ("https://reddit.com/r/" +:+ name +:+ "/comments/" +:+ i +:+ rest)
        with ("https://" +:+ ("reddit.com/r/" +:+ name +:+ "/comments/" +:+ i +:+ rest)).
      rewrite strip_prefix_app. unfold match_host, match_long.
      change (span is_word_char
                ("reddit.com/r/" +:+ name +:+ "/comments/" +:+ i +:+ rest))
        with ("reddit", ".com/r/" +:+ name +:+ "/comments/" +:+ i +:+ rest).
      change (strip_prefix "." (".com/r/" +:+ name +:+ "/comments/" +:+ i +:+ rest))
        with (Some ("com/r/" +:+ name +:+ "/comments/" +:+ i +:+ rest)).
      change (match_comments ("com/r/" +:+ name +:+ "/comments/" +:+ i +:+ rest))
        with (@None string).
      simpl orelse at 2. cbv iota. rewrite match_comments_complete by done. done.
    + unfold submission_pattern_match.
      change ("https://redd.it/" +:+ i +:+ rest)
        with ("https://" +:+ ("redd.it/" +:+ i +:+ rest)).
      rewrite strip_prefix_app. unfold match_host.
      change (match_long ("redd.it/" +:+ i +:+ rest)) with (@None string).
      unfold orelse at 2. unfold match_short.
      change ("redd.it/" +:+ i +:+ rest) with ("redd.it" +:+ ("/" +:+ i +:+ rest)).
      rewrite strip_prefix_app, match_id_complete by done. done.
Qed.

Lemma submission_pattern_captures_witness :
  submission_pattern_match "https://old.reddit.com/r/lavaporn/comments/2a00np/" = Some "2a00np"
  ∧ submission_pattern_match "https://redd.it/2a00np/" = Some "2a00np".
Proof.
  destruct (submission_pattern_captures "lavaporn" "2a00np" "/") as [_ H].
  destruct H as (H1 & _ & H3); [discriminate | reflexivity | discriminate
                               | reflexivity | reflexivity |].
  split; [exact (H1 "old" ltac:(discriminate) eq_refl) | exact H3].
Defined.

(** X14. A root-relative link to the comments of a post is read as one
    under [https://www.reddit.com], so the loop of [items] takes the post's
    identifier for the next round instead of sending a message. *)
Theorem relative_links_are_followed {W} (recursion : Z)
    (api : string → W → result pair_ * W) (name i rest : string) (data : meta) :
  name ≠ EmptyString → all_chars is_name_char name = true →
  i ≠ EmptyString → all_chars is_id_char i = true → stops is_id_char rest = true →
  classify (extractor_for recursion api)
    ("/r/" +:+ name +:+ "/comments/" +:+ i +:+ rest) data = Ok (Extra i).
Proof.
  intros Hn Hname Hne Hi Hr.
  change ("/r/" +:+ name +:+ "/comments/" +:+ i +:+ rest)
    with (String "/" ("r/" +:+ name +:+ "/comments/" +:+ i +:+ rest)).
  unfold classify.
  change (Ascii.eqb "/" "#") with false. change (Ascii.eqb "/" "/") with true.
  cbv iota. cbv zeta.
  change (subre_match (extractor_for recursion api)) with submission_pattern_match.
  change ("https://www.reddit.com"
            +:+ String "/" ("r/" +:+ name +:+ "/comments/" +:+ i +:+ rest))
    with ("https://" +:+ ("www" +:+ ("." +:+
            ("reddit.com/r/" +:+ name +:+ "/comments/" +:+ i +:+ rest)))).
  unfold submission_pattern_match. rewrite strip_prefix_app.
  unfold match_host, match_long. rewrite span_app by done.
  change (String.eqb "www" EmptyString) with false. cbv iota.
  rewrite strip_prefix_app, match_comments_complete by done. done.
Qed.

Lemma relative_links_are_followed_witness :
  classify (extractor_for 0 leaf_api) "/r/lavaporn/comments/2a00np/?context=3"
    (OfComment (cm "dxh1")) = Ok (Extra "2a00np").
Proof.
  apply (relative_links_are_followed 0 leaf_api "lavaporn" "2a00np" "/?context=3");
    (discriminate || reflexivity).
Defined.

(** ** The loop of [items] over the links *)

Lemma classify_cases {W} (self : RedditExtractor W) u data :
  match classify self u data with
  | Raise e => e = IndexError ∧ u = EmptyString
  | Ok Skip => u ≠ EmptyString
  | Ok (Extra sid) => u ≠ EmptyString ∧ subre_match self (absolute u) = Some sid
  | Ok (Emit u' data') =>
      u ≠ EmptyString ∧ data' = data ∧ u' = unescape self (absolute u)
      ∧ subre_match self (absolute u) = None
  end.
Proof.
  destruct u as [|c u]; [done|]. unfold classify, absolute.
  destruct (Ascii.eqb c "#"); [done|].
  destruct (subre_match self _) eqn:Hm; done.
Qed.

Lemma scan_spec {W} (self : RedditExtractor W) l : ∀ extra,
  let r := scan self l extra in
  snd r = (if existsb (λ x, is_empty (fst x)) l then Some IndexError else None)
  ∧ (∃ new, snd (fst r) = extra ++ new
            ∧ Forall (λ sid, ∃ u d, (u, d) ∈ l
                             ∧ subre_match self (absolute u) = Some sid) new)
  ∧ Forall (λ a, ∃ u d, (u, d) ∈ l ∧ a = Queue (unescape self (absolute u)) d
                        ∧ subre_match self (absolute u) = None) (fst (fst r)).
Proof.
  induction l as [|[u d] l IH]; intros extra r; subst r.
  - simpl. split; [done|]. split; [|done]. exists []. by rewrite app_nil_r.
  - cbn [scan existsb fst]. pose proof (classify_cases self u d) as Hc.
    destruct (classify self u d) as [[|sid|u' d']|e].
    + destruct u; [done|]. cbn [is_empty orb].
      destruct (IH extra) as (He & (new & Hn & Hnew) & Ha).
      split; [done|]. split.
      * exists new. split; [done|].
        eapply Forall_impl; [exact Hnew|]. intros x (v & w & Hin & Hx).
        exists v, w. split; [by right|done].
      * eapply Forall_impl; [exact Ha|]. intros x (v & w & Hin & Hx).
        exists v, w. split; [by right|done].
    + destruct Hc as [Hu Hm]. destruct u; [done|]. cbn [is_empty orb].
      destruct (IH (extra ++ [sid])) as (He & (new & Hn & Hnew) & Ha).
      split; [done|]. split.
      * exists (sid :: new). split; [by rewrite Hn, <- app_assoc|].
        constructor; [exists (String a u), d; split; [by left|done]|].
        eapply Forall_impl; [exact Hnew|]. intros x (v & w & Hin & Hx).
        exists v, w. split; [by right|done].
      * eapply Forall_impl; [exact Ha|]. intros x (v & w & Hin & Hx).
        exists v, w. split; [by right|done].
    + destruct Hc as (Hu & -> & -> & Hm). destruct u; [done|]. cbn [is_empty orb].
      destruct (IH extra) as (He & (new & Hn & Hnew) & Ha).
      destruct (scan self l extra) as [[acts extra'] e]. simpl in *.
      split; [done|]. split.
      * exists new. split; [done|].
        eapply Forall_impl; [exact Hnew|]. intros x (v & w & Hin & Hx).
        exists v, w. split; [by right|done].
      * constructor; [exists (String a u), d; split; [by left|done]|].
        eapply Forall_impl; [exact Ha|]. intros x (v & w & Hin & Hx).
        exists v, w. split; [by right|done].
    + destruct Hc as [-> ->]. simpl. split; [done|]. split; [|done].
      exists []. by rewrite app_nil_r.
Qed.

(** X15. The loop of [items] over the links of one source: it raises
    exactly when a link is the empty string, and then [IndexError]; the
    identifiers it adds to [extra] were captured by the pattern from a link
    of the source, read under [https://www.reddit.com] when root-relative;
    and every message it sends is for a link the pattern does not match. *)
Theorem scan_outcome {W} (self : RedditExtractor W) (l : list (string * meta))
    (extra : list string) :
  let r := scan self l extra in
  snd r = (if existsb (λ x, is_empty (fst x)) l then Some IndexError else None)
  ∧ (∃ new, snd (fst r) = extra ++ new
            ∧ Forall (λ sid, ∃ u d, (u, d) ∈ l
                             ∧ subre_match self (absolute u) = Some sid) new)
  ∧ Forall (λ a, ∃ u d, (u, d) ∈ l ∧ a = Queue (unescape self (absolute u)) d
                        ∧ subre_match self (absolute u) = None) (fst (fst r)).
Proof. apply scan_spec. Qed.

Lemma scan_captured {W} (self : RedditExtractor W) l extra acts extra' e :
  scan self l extra = (acts, extra', e) →
  Forall (captured self) extra →
  Forall (captured self) extra' ∧ Forall (unmatched self) acts.
Proof.
  intros Hs Hex. destruct (scan_spec self l extra) as (_ & (new & Hn & Hnew) & Ha).
  rewrite Hs in Hn, Ha. simpl in Hn, Ha. subst extra'. split.
  - apply Forall_app. split; [done|].
    eapply Forall_impl; [exact Hnew|]. intros x (u & d & _ & Hx). by exists (absolute u).
  - eapply Forall_impl; [exact Ha|]. intros x (u & d & _ & -> & Hx).
    by exists (absolute u).
Qed.

Lemma do_pair_captured {W} (self : RedditExtractor W) p extra c acts extra' e c' :
  do_pair self p extra c = (acts, extra', e, c') →
  Forall (captured self) extra →
  Forall (captured self) extra' ∧ Forall (unmatched self) acts.
Proof.
  unfold do_pair. intros H Hex.
  destruct (fst p) as [sub|]; destruct (snd p) as [cs|];
    match type of H with
    | context [scan self ?l extra] =>
        destruct (scan self l extra) as [[a x] e0] eqn:Hs
    end; simplify_eq;
    apply scan_captured in Hs as [H1 H2]; try done;
    (split; [done|]); try done; by constructor.
Qed.

Lemma do_pairs_captured {W} (self : RedditExtractor W) ps fin :
  ∀ extra c acts extra' e c',
    do_pairs self ps fin extra c = (acts, extra', e, c') →
    Forall (captured self) extra →
    Forall (captured self) extra' ∧ Forall (unmatched self) acts.
Proof.
  induction ps as [|p ps IH]; intros extra c acts extra' e c' H Hex.
  - simpl in H. by simplify_eq.
  - cbn [do_pairs] in H.
    destruct (do_pair self p extra c) as [[[a1 x1] [e1|]] c1] eqn:Hp;
      apply do_pair_captured in Hp as [H1 H2]; try done.
    + by simplify_eq.
    + destruct (do_pairs self ps fin x1 c1) as [[[a2 x2] e2] c2] eqn:Hps.
      apply IH in Hps as [H3 H4]; [|done]. simplify_eq.
      split; [done|]. by apply Forall_app.
Qed.

Lemma do_expand_captured {W} (self : RedditExtractor W) sids :
  ∀ extra c acts extra' e c',
    do_expand self sids extra c = (acts, extra', e, c') →
    Forall (captured self) extra →
    Forall (captured self) extra' ∧ Forall (unmatched self) acts
    ∧ fetched acts ⊆ sids.
Proof.
  induction sids as [|sid sids IH]; intros extra c acts extra' e c' H Hex.
  - simpl in H. simplify_eq. by repeat split.
  - cbn [do_expand] in H. destruct (decide (sid ∈ visited c)).
    + apply IH in H as (H1 & H2 & H3); [|done]. repeat split; [done..|set_solver].
    + destruct (api_submission self sid (world c)) as [[p|e0] w].
      * destruct (do_pair self p extra (Crawl (visited c) w)) as [[[a1 x1] [e1|]] c1] eqn:Hp;
          pose proof (do_pair_spec _ _ _ _ _ _ _ _ Hp) as (Hf & _ & _);
          apply do_pair_captured in Hp as [H1 H2]; try done.
        -- simplify_eq. repeat split; [done|by constructor|].
           simpl. rewrite Hf. set_solver.
        -- destruct (do_expand self sids x1 c1) as [[[a2 x2] e2] c2] eqn:Hx.
           apply IH in Hx as (H3 & H4 & H5); [|done]. simplify_eq.
           repeat split; [done|constructor; [done|by apply Forall_app]|].
           simpl. rewrite fetched_app, Hf. set_solver.
      * simplify_eq. repeat split; [done|by repeat constructor|]. simpl. set_solver.
Qed.

Lemma items_loop_captured {W} (self : RedditExtractor W) fuel :
  ∀ depth src c acts st c',
    items_loop self fuel depth src c = (acts, st, c') →
    src_captured self src →
    Forall (captured self) (fetched acts) ∧ Forall (unmatched self) acts.
Proof.
  induction fuel as [|fuel IH]; intros depth src c acts st c' H Hsrc.
  - simpl in H. by simplify_eq.
  - rewrite items_loop_step in H.
    destruct (round self src c) as [[[a1 x1] e1] c1] eqn:Hr.
    assert (Hround : Forall (captured self) x1 ∧ Forall (unmatched self) a1
                     ∧ Forall (captured self) (fetched a1)).
    { destruct src as [ps|sids]; simpl in Hr.
      - pose proof (do_pairs_spec _ _ _ _ _ _ _ _ _ Hr) as [Hf _].
        apply do_pairs_captured in Hr as [H1 H2]; [|done]. by rewrite Hf.
      - apply do_expand_captured in Hr as (H1 & H2 & H3); [|done].
        repeat split; [done..|]. simpl in Hsrc.
        rewrite Forall_forall in Hsrc. apply Forall_forall. intros x Hx.
        apply Hsrc. by apply H3. }
    destruct Hround as (Hx1 & Ha1 & Hf1).
    destruct e1 as [e1|]; [by simplify_eq|].
    destruct (is_nil x1 || (depth =? max_depth self)); [by simplify_eq|].
    destruct (items_loop self fuel (depth + 1) (Expand x1) c1) as [[a2 st2] c2] eqn:Hl.
    apply IH in Hl as [H3 H4]; [|done]. simplify_eq.
    rewrite fetched_app. split; by apply Forall_app.
Qed.

(** X16. Whatever [submissions] gives and however long the crawl runs,
    [items] asks the API only for identifiers the submission pattern
    captured from some link, and sends messages only for links the pattern
    does not match. *)
Theorem items_splits_links {W} (self : RedditExtractor W) (fuel : nat)
    (submissions : lazy pair_) (c : crawl W) :
  let acts := actions_of (items self fuel submissions c) in
  Forall (captured self) (fetched acts) ∧ Forall (unmatched self) acts.
Proof.
  unfold items, actions_of.
  destruct (items_loop self fuel 0 (Given submissions) c) as [[acts st] c'] eqn:Hl.
  apply items_loop_captured in Hl as [H1 H2]; [|done]. simpl. split; [done|].
  by constructor.
Qed.

(** X17. With [recursion] 0, the default, [items] never calls
    [self.api.submission]: it ends with the first round, whatever
    identifiers that round captured, and the API's world is left as it
    was. *)
Theorem no_recursion_never_fetches {W} (self : RedditExtractor W) (fuel : nat)
    (submissions : lazy pair_) (c : crawl W) :
  max_depth self = 0 →
  let r := items self (S fuel) submissions c in
  fetched (actions_of r) = []
  ∧ status_of r ≠ Running
  ∧ world (snd r) = world c
  ∧ r = items self 1 submissions c.
Proof.
  intros Hd r. subst r. unfold items, actions_of, status_of.
  rewrite !items_loop_step. rewrite Hd. simpl Z.eqb.
  destruct (round self (Given submissions) c) as [[[acts extra] e] c1] eqn:Hr.
  rewrite !orb_true_r.
  simpl in Hr.
  assert (Hw : world c1 = world c).
  { clear -Hr. revert Hr. generalize (@nil string) as x. revert c acts c1 extra e.
    induction (yields submissions) as [|p ps IH]; intros c acts c1 extra e x H.
    - simpl in H. by simplify_eq.
    - cbn [do_pairs] in H.
      destruct (do_pair self p x c) as [[[a1 x1] e1] c2] eqn:Hp.
      assert (world c2 = world c) as Hw2.
      { unfold do_pair in Hp. repeat case_match; by simplify_eq. }
      destruct e1 as [e1|]; [by simplify_eq|].
      destruct (do_pairs self ps (ending submissions) x1 c2) as [[[a2 x2] e2] c3] eqn:Hps.
      apply IH in Hps. simplify_eq. congruence. }
  apply do_pairs_spec in Hr as [Hf _].
  destruct e as [e|]; simpl; by rewrite Hf.
Qed.

Lemma no_recursion_never_fetches_witness :
  let r := items (extractor_for 0 leaf_api) 5 twice_linked fresh_crawl in
  fetched (actions_of r) = [] ∧ status_of r = Returned.
Proof.
  intros r.
  destruct (no_recursion_never_fetches (extractor_for 0 leaf_api) 4 twice_linked
              fresh_crawl eq_refl) as (Hf & _ & _ & _).
  split; [exact Hf | vm_compute; reflexivity].
Defined.

Lemma existsb_app' {A} (f : A → bool) l1 l2 :
  existsb f l1 = true → existsb f (l1 ++ l2) = true.
Proof. intros H. by rewrite existsb_app, H. Qed.

(** X18. A post whose own link, or a link of whose text, is the empty
    string stops [items]: [url[0]] raises [IndexError] in the round that
    meets it.  The post has been added to the visited set by then and no
    post has been fetched. *)
Theorem empty_link_raises {W} (self : RedditExtractor W) (fuel : nat) (sub : post)
    (cs : option (lazy comment)) (rest : list pair_) (fin : option exn) (c : crawl W) :
  existsb (λ x, is_empty (fst x)) (post_urls self sub) = true →
  let r := items self (S fuel) (Lazy ((Some sub, cs) :: rest) fin) c in
  status_of r = Raised IndexError
  ∧ fetched (actions_of r) = []
  ∧ id sub ∈ visited (snd r)
  ∧ world (snd r) = world c.
Proof.
  intros He r. subst r. unfold items, actions_of, status_of.
  rewrite items_loop_step. cbn [round yields ending do_pairs].
  destruct (do_pair self (Some sub, cs) [] c) as [[[a1 x1] e1] c1] eqn:Hp.
  pose proof (do_pair_spec _ _ _ _ _ _ _ _ Hp) as (Hf & _ & Hv).
  assert (e1 = Some IndexError ∧ world c1 = world c) as [-> Hw].
  { cbv beta iota zeta delta [do_pair fst snd] in Hp.
    destruct cs as [cs|];
      match type of Hp with
      | context [scan self ?l []] =>
          pose proof (scan_spec self l []) as (Hs & _);
          destruct (scan self l []) as [[a x] e0]
      end;
      simpl in Hs; rewrite existsb_app' in Hs by done; by simplify_eq. }
  simpl. repeat split; [by rewrite Hf|by apply Hv|done].
Qed.

Lemma empty_link_raises_witness :
  let p := Post "8cqhub" (inject_Z 1523858763) 0 false EmptyString None in
  status_of (items (extractor_for 1 leaf_api) 3 (Lazy [(Some p, None)] None) fresh_crawl)
  = Raised IndexError.
Proof.
  intros p.
  exact (proj1 (empty_link_raises (extractor_for 1 leaf_api) 2 p None [] None
                  fresh_crawl eq_refl)).
Defined.

(** ** The authorization of a request *)

Lemma authorizations_app l1 l2 :
  authorizations (l1 ++ l2) = authorizations l1 ++ authorizations l2.
Proof. unfold authorizations. by rewrite flat_map_app. Qed.

Lemma ratelimit_authorization self resp s :
  authorization (snd (ratelimit self resp s)) = authorization s
  ∧ ∃ slp, log (snd (ratelimit self resp s)) = log s ++ slp ∧ authorizations slp = [].
Proof.
  unfold ratelimit, sleep, raise, ret, modify.
  repeat case_match; (split; [done|]);
    try (exists []; simpl; by rewrite app_nil_r).
  by eexists [ESleep _].
Qed.

(** X19. No request of [_call] goes out without an authorization: the one
    it sends carries the value [authenticate] has just put in the session,
    which is the cached one when the cache holds one that has not expired,
    and otherwise [Bearer] and the token the token endpoint has just issued
    with status 200 for the grant of the configured credential. *)
Theorem call_is_authorized (self : RedditAPI) (endpoint : string) (p : params)
    (s : state) :
  let r := _call self endpoint p s in
  ∃ new,
    log (snd r) = log s ++ new
    ∧ Forall (λ a,
        a = authorization (snd r)
        ∧ match cache_get (refresh_token self) s with
          | Some v => a = Some v
          | None =>
              ∃ resp data t,
                token_server self (log s) (client_id self)
                  (grant_for (refresh_token self)) = Ok resp
                ∧ t_json resp = Some data ∧ status_code resp = 200
                ∧ access_token data = Some t
                ∧ a = Some ("Bearer " +:+ t)
          end) (authorizations new).
Proof.
  intros r. subst r.
  set (url := "https://oauth.reddit.com" +:+ endpoint).
  assert (Hauth : ∃ tok, log (snd (authenticate self s)) = log s ++ tok
            ∧ authorizations tok = []
            ∧ (fst (authenticate self s) = Ok tt →
               match cache_get (refresh_token self) s with
               | Some v => authorization (snd (authenticate self s)) = Some v
               | None =>
                   ∃ resp data t,
                     token_server self (log s) (client_id self)
                       (grant_for (refresh_token self)) = Ok resp
                     ∧ t_json resp = Some data ∧ status_code resp = 200
                     ∧ access_token data = Some t
                     ∧ authorization (snd (authenticate self s)) = Some ("Bearer " +:+ t)
               end)).
  { unfold authenticate, cached_authenticate_impl, _authenticate_impl,
      bind, lift, gets, modify.
    destruct (cache_get (refresh_token self) s) as [v|].
    - exists []. simpl. by rewrite app_nil_r.
    - exists [EToken (client_id self) (grant_for (refresh_token self))]. simpl.
      destruct (token_server self (log s) (client_id self) (grant_for (refresh_token self)))
        as [resp|e]; [|done].
      unfold token_of. destruct (t_json resp) as [data|] eqn:Hj; [|done].
      destruct (status_code resp =? 200) eqn:Hst; [|done].
      destruct (access_token data) as [t|] eqn:Ht; [|done]. simpl.
      split; [done|]. split; [done|]. intros _. exists resp, data, t.
      apply Z.eqb_eq in Hst. done. }
  destruct Hauth as (tok & Hlog & Hno & Hok).
  destruct (_call self endpoint p s) as [x s'] eqn:Hc. cbn [snd].
  unfold _call, bind at 1 in Hc. fold url in Hc.
  destruct (authenticate self s) as [[[]|e] s1]; simpl in Hlog, Hok.
  - specialize (Hok eq_refl).
    unfold request, bind, gets, modify, lift in Hc. simpl in Hc.
    destruct (api_server self (log s1) url (raw_json p) (authorization s1)) as [resp|e].
    + destruct (ratelimit_authorization self resp
                  (add_event (EGet url (raw_json p) (authorization s1)) s1))
        as (Ha & slp & Hl & Hs).
      exists (tok ++ [EGet url (raw_json p) (authorization s1)] ++ slp).
      destruct (ratelimit self resp _) as [[[]|e] s3]; simpl in Ha, Hl; simplify_eq;
        (split; [by rewrite Hl, Hlog, <- !app_assoc|]);
        rewrite !authorizations_app, Hno, Hs; simpl;
        (constructor; [|done]); rewrite Ha; (split; [done|]);
        destruct (cache_get (refresh_token self) s); done.
    + exists (tok ++ [EGet url (raw_json p) (authorization s1)]). simplify_eq. simpl.
      split; [by rewrite Hlog, <- app_assoc|].
      rewrite authorizations_app, Hno. simpl. constructor; [|done]. split; [done|].
      destruct (cache_get (refresh_token self) s); done.
  - exists tok. simplify_eq. split; [done|]. by rewrite Hno.
Qed.
